(** * friedprotato: content-block editor, carousel, lightbox and API routes

    A shallow embedding of the state logic of

    - [src/components/modals/ContentBlockEditor.tsx]  (module [ContentBlockEditor])
    - [src/components/profile/ContentBlock.tsx]       (module [ContentBlock])
    - [src/components/profile/ImageLightbox.tsx]      (module [ImageLightbox])
    - [src/app/api/upload/route.ts]                   (module [UploadRoute])
    - [src/app/api/profile/route.ts]                  (module [ProfileRoute])

    React state is a record, every [setX] of the source is a function on that
    record, and an event handler is a function from the state of the render
    it closes over to the next state together with the list of effects it
    performed (alerts, callbacks of the parent, network requests).

    JavaScript numbers that hold indices and sizes are integers ([Z]);
    strings are sequences of code units below 256 ([string]). *)

From stdpp Require Import base option list strings.
From Stdlib Require Import ZArith Ascii Lia.

Local Open Scope string_scope.
Local Open Scope list_scope.
Local Open Scope Z_scope.

(** ** JavaScript primitives used by the sources *)

Module Js.

(** Code units that [String.prototype.trim] strips (WhiteSpace and
    LineTerminator of ECMA-262) among the code units below 256:
    TAB, LF, VT, FF, CR, SPACE and NBSP. *)
Definition is_white_space (c : ascii) : bool :=
  let n := Ascii.nat_of_ascii c in
  (n =? 9)%nat || (n =? 10)%nat || (n =? 11)%nat || (n =? 12)%nat
  || (n =? 13)%nat || (n =? 32)%nat || (n =? 160)%nat.

Fixpoint trimStart (s : string) : string :=
  match s with
  | EmptyString => EmptyString
  | String c s' => if is_white_space c then trimStart s' else s
  end.

Fixpoint trimEnd (s : string) : string :=
  match s with
  | EmptyString => EmptyString
  | String c s' =>
      match trimEnd s' with
      | EmptyString => if is_white_space c then EmptyString else String c EmptyString
      | t => String c t
      end
  end.

(** [s.trim()] *)
Definition trim (s : string) : string := trimEnd (trimStart s).

(** ToBoolean on a string: only the empty string is falsy. *)
Definition truthy (s : string) : bool :=
  match s with
  | EmptyString => false
  | String _ _ => true
  end.

(** [arr.includes(x)] on an array of strings. *)
Fixpoint includes (arr : list string) (x : string) : bool :=
  match arr with
  | [] => false
  | y :: arr' => String.eqb y x || includes arr' x
  end.

(** [s.includes(sub)] on strings. *)
Fixpoint str_includes (s sub : string) : bool :=
  String.prefix sub s ||
  match s with
  | EmptyString => false
  | String _ s' => str_includes s' sub
  end.

(** [arr.filter((_, i) => p(i))]: the callback sees the element's index. *)
Fixpoint filter_index_from {A} (p : Z -> bool) (i : Z) (arr : list A) : list A :=
  match arr with
  | [] => []
  | x :: arr' =>
      if p i then x :: filter_index_from p (i + 1) arr'
      else filter_index_from p (i + 1) arr'
  end.

Definition filter_index {A} (p : Z -> bool) (arr : list A) : list A :=
  filter_index_from p 0 arr.

(** [arr.length] *)
Definition len {A} (arr : list A) : Z := Z.of_nat (length arr).

(** [new Array(n).fill(x)] for the lengths the sources pass (an array length). *)
Definition array_fill {A} (n : Z) (x : A) : list A := replicate (Z.to_nat n) x.

(** [a !== b] on numbers. *)
Definition neq (a b : Z) : bool := negb (a =? b).

(** [s.startsWith(p)] *)
Definition startsWith (s p : string) : bool := String.prefix p s.

(** [s.substring(n)] for [n] a natural number: the rest from position [n]. *)
Fixpoint substring_from (n : nat) (s : string) : string :=
  match n, s with
  | O, _ => s
  | S n', String _ s' => substring_from n' s'
  | S _, EmptyString => EmptyString
  end.

End Js.

(** ** The file objects of an upload ([File] of the DOM) *)

Module File.
Record t : Type := mk { name : string; type : string; size : Z }.
End File.

(** ** src/components/modals/ContentBlockEditor.tsx *)

Module ContentBlockEditor.

Inductive ContentBlockType : Type := title | context.

(** The [initialData] prop. *)
Record InitialData : Type := {
  init_type : ContentBlockType;
  init_content : string;
  init_duration : option string;
  init_images : option (list string);
  init_imageLinks : option (list string)
}.

(** The nine [useState] cells of the component. *)
Record State : Type := mkState {
  type : ContentBlockType;
  content : string;
  hasDuration : bool;
  duration : string;
  hasImages : bool;
  images : list string;
  imageLinks : list string;
  isUploading : bool;
  previewIndex : Z
}.

Definition setType v (s : State) : State :=
  mkState v (content s) (hasDuration s) (duration s) (hasImages s)
          (images s) (imageLinks s) (isUploading s) (previewIndex s).
Definition setContent v (s : State) : State :=
  mkState (type s) v (hasDuration s) (duration s) (hasImages s)
          (images s) (imageLinks s) (isUploading s) (previewIndex s).
Definition setHasDuration v (s : State) : State :=
  mkState (type s) (content s) v (duration s) (hasImages s)
          (images s) (imageLinks s) (isUploading s) (previewIndex s).
Definition setDuration v (s : State) : State :=
  mkState (type s) (content s) (hasDuration s) v (hasImages s)
          (images s) (imageLinks s) (isUploading s) (previewIndex s).
Definition setHasImages v (s : State) : State :=
  mkState (type s) (content s) (hasDuration s) (duration s) v
          (images s) (imageLinks s) (isUploading s) (previewIndex s).
(** [setImages(prev => f(prev))] *)
Definition setImages (f : list string -> list string) (s : State) : State :=
  mkState (type s) (content s) (hasDuration s) (duration s) (hasImages s)
          (f (images s)) (imageLinks s) (isUploading s) (previewIndex s).
Definition setImageLinks (f : list string -> list string) (s : State) : State :=
  mkState (type s) (content s) (hasDuration s) (duration s) (hasImages s)
          (images s) (f (imageLinks s)) (isUploading s) (previewIndex s).
Definition setIsUploading v (s : State) : State :=
  mkState (type s) (content s) (hasDuration s) (duration s) (hasImages s)
          (images s) (imageLinks s) v (previewIndex s).
Definition setPreviewIndex v (s : State) : State :=
  mkState (type s) (content s) (hasDuration s) (duration s) (hasImages s)
          (images s) (imageLinks s) (isUploading s) v.

(** What a handler does to the outside world, in program order. *)
Inductive Effect : Type :=
| alert (message : string)
| onSave (t : ContentBlockType) (text : string) (dur : option string)
         (imgs : option (list string)) (links : option (list string))
| onClose
| onDelete
| fetch_upload (file : File.t) (token : string)   (* POST /api/upload, Bearer token *)
| console_log (fileName : string)
| console_error.

(** The values of the [useState] initialisers. *)
Definition initial : State :=
  mkState title "" false "" false [] [] false 0.

(** The "load initial data" effect, run when [initialData] or [isOpen] changes. *)
Definition load (initialData : option InitialData) (s : State) : State :=
  match initialData with
  | Some d =>
      let imgs := default [] (init_images d) in
      mkState (init_type d) (init_content d)
              (match init_duration d with Some x => Js.truthy x | None => false end)
              (match init_duration d with
               | Some x => if Js.truthy x then x else ""
               | None => "" end)
              (match init_images d with Some l => 0 <? Js.len l | None => false end)
              imgs
              (default [] (init_imageLinks d))
              (isUploading s) 0
  | None =>
      mkState title "" false "" false [] [] (isUploading s) 0
  end.

Definition handleClose (initialData : option InitialData) (s : State)
  : State * list Effect :=
  match initialData with
  | None => (mkState title "" false "" false [] [] (isUploading s) 0, [onClose])
  | Some _ => (s, [onClose])
  end.

Definition handleSave (initialData : option InitialData) (s : State)
  : State * list Effect :=
  if negb (Js.truthy (Js.trim (content s))) && (Js.len (images s) =? 0) then
    (s, [alert "Please add either text or at least one image"])
  else
    let saved :=
      onSave (type s) (content s)
        (if hasDuration s && Js.truthy (Js.trim (duration s))
         then Some (duration s) else None)
        (if hasImages s && (0 <? Js.len (images s))
         then Some (images s) else None)
        (if hasImages s && (0 <? Js.len (imageLinks s))
         then Some (imageLinks s) else None) in
    let '(s', eff) := handleClose initialData s in
    (s', saved :: eff).

(** [confirmed] is the answer of the [confirm] dialog; [hasOnDelete] says
    whether the optional [onDelete] prop was passed. *)
Definition handleDelete (initialData : option InitialData)
           (hasOnDelete confirmed : bool) (s : State) : State * list Effect :=
  if hasOnDelete && confirmed then
    let '(s', eff) := handleClose initialData s in (s', onDelete :: eff)
  else (s, []).

(** The "Add Photos" checkbox: [onChange={(e) => setHasImages(e.target.checked)}]. *)
Definition toggleHasImages (checked : bool) (s : State) : State :=
  setHasImages checked s.

(** The links are a list here, which is the link array as long as it has
    no hole; [SparseEditor.handleRemoveImage] is the handler on the array. *)
Definition handleRemoveImage (index : Z) (s : State) : State :=
  let s1 := setImages (Js.filter_index (fun i => Js.neq i index)) s in
  let s2 := setImageLinks (Js.filter_index (fun i => Js.neq i index)) s1 in
  if previewIndex s >=? Js.len (images s) - 1 then
    setPreviewIndex (Z.max 0 (Js.len (images s) - 2)) s2
  else s2.

(** [newLinks[index] = link] on a copy of the array, for an index that is a
    natural number. Writing at the length appends. Writing further out would
    leave holes in the array, which a [list string] cannot hold: such a call
    is outside this model ([None]). *)
Definition handleUpdateLink (index : nat) (link : string) (s : State) : option State :=
  if decide (index < length (imageLinks s))%nat then
    Some (setImageLinks (fun prev => <[index := link]> prev) s)
  else if decide (index = length (imageLinks s)) then
    Some (setImageLinks (fun prev => prev ++ [link]) s)
  else None.

(** The arrows over the preview:
    [setPreviewIndex(p => p > 0 ? p - 1 : images.length - 1)] and
    [setPreviewIndex(p => p < images.length - 1 ? p + 1 : 0)]. *)
Definition previewPrevious (s : State) : State :=
  setPreviewIndex
    (if previewIndex s >? 0 then previewIndex s - 1 else Js.len (images s) - 1) s.

Definition previewNext (s : State) : State :=
  setPreviewIndex
    (if previewIndex s <? Js.len (images s) - 1 then previewIndex s + 1 else 0) s.

(** *** Upload: the client-side pre-check *)

Definition validTypes : list string :=
  ["image/jpeg"; "image/jpg"; "image/png"; "image/gif"; "image/webp"].
Definition maxSize : Z := 5 * 1024 * 1024.

(** Body of the validation loop for one file: the alert it raises, if any. *)
Definition check_file (file : File.t) : option string :=
  if negb (Js.includes validTypes (File.type file)) then
    Some (File.name file +:+ ": Invalid file type. Only JPEG, PNG, GIF, and WebP are allowed.")
  else if File.size file >? maxSize then
    Some (File.name file +:+ ": File too large. Maximum size is 5MB.")
  else None.

(** The validation loop: stops at the first file that fails. *)
Fixpoint validate_all (files : list File.t) : option string :=
  match files with
  | [] => None
  | file :: rest =>
      match check_file file with
      | Some msg => Some msg
      | None => validate_all rest
      end
  end.


(** *** Upload: the network phase

    The body of the [try] block either runs to its end or throws; what it
    did before throwing is kept. [Try A] pairs the effects performed with
    the value computed, [None] standing for a thrown exception. *)

Definition Try (A : Type) : Type := (list Effect * option A)%type.

#[local] Instance Try_ret : MRet Try := fun A x => ([], Some x).

#[local] Instance Try_bind : MBind Try := fun A B f m =>
  match m with
  | (eff, Some x) => let '(eff', r) := f x in (eff ++ eff', r)
  | (eff, None) => (eff, None)
  end.

Definition perform (e : Effect) : Try unit := ([e], Some tt).
Definition throw {A} : Try A := ([], None).
Definition of_option {A} (o : option A) : Try A := ([], o).

(** What [await fetch(...)] followed by [await response.text()] gives. *)
Inductive FetchOutcome : Type :=
| rejects                                (* the promise rejects: no response *)
| responds (ok : bool) (text : string).

Section Upload.

(** The browser and the network are not part of the repository. *)
Variable Json : Type.
(** [JSON.parse(text)]; [None] when it throws a SyntaxError. *)
Variable JSON_parse : string -> option Json.
(** [JSON.parse(text).error] as the template literal renders it. *)
Variable get_error : Json -> string.
(** [data.imageUrl]; [None] when the property read throws (data is null). *)
Variable get_imageUrl : Json -> option string.
(** The outcome of the [i]-th request of the batch. *)
Variable fetch : nat -> File.t -> string -> FetchOutcome.

(** The upload loop, from its [i]-th iteration on. *)
Fixpoint upload_each (token : string) (i : nat) (files : list File.t)
         (uploadedUrls : list string) : Try (list string) :=
  match files with
  | [] => mret uploadedUrls
  | file :: rest =>
      perform (fetch_upload file token) ≫= fun _ =>
      match fetch i file token with
      | rejects => throw
      | responds ok text =>
          if negb ok then
            (if Js.str_includes text "{"
             then of_option (get_error <$> JSON_parse text)
             else mret text) ≫= fun error =>
            perform (alert ("Failed to upload " +:+ File.name file +:+ ": " +:+ error)) ≫= fun _ =>
            upload_each token (S i) rest uploadedUrls
          else
            of_option (JSON_parse text) ≫= fun data =>
            of_option (get_imageUrl data) ≫= fun imageUrl =>
            perform (console_log (File.name file)) ≫= fun _ =>
            upload_each token (S i) rest (uploadedUrls ++ [imageUrl])
      end
  end.

(** [cookie] is [Cookies.get('auth_token')], [files] is [e.target.files].
    The handler is asynchronous; the model runs it without any other
    handler in between. Resetting the DOM file input in [finally] is not
    state of the component and is left out. *)
Definition handleFileUpload (cookie : option string) (files : option (list File.t))
           (s : State) : State * list Effect :=
  match files with
  | None | Some [] => (s, [])
  | Some fs =>
      match validate_all fs with
      | Some msg => (s, [alert msg])
      | None =>
          let s1 := setIsUploading true s in
          let '(s2, eff) :=
            match cookie with
            | None | Some EmptyString =>
                (setIsUploading false s1, [alert "Please log in again"])
            | Some token =>
                match upload_each token 0 fs [] with
                | (eff, Some uploadedUrls) =>
                    (setImageLinks
                       (fun prev => prev ++ Js.array_fill (Js.len uploadedUrls) "")
                       (setImages (fun prev => prev ++ uploadedUrls) s1),
                     eff)
                | (eff, None) =>
                    (s1, eff ++ [console_error; alert "Failed to upload. Check console."])
                end
            end in
          (setIsUploading false s2, eff)
      end
  end.

End Upload.

End ContentBlockEditor.

(** ** ContentBlockEditor.tsx again: the link array as JavaScript has it

    [imageLinks] is a JavaScript array, and an assignment past its end leaves
    holes. [ContentBlockEditor.State] holds the links as a list of strings,
    which is this array as long as it has no hole. The two handlers that read
    or write single positions are given here over the array itself, with the
    three cells they touch. *)

Module SparseEditor.

(** A position of an array of strings: a hole (no property at this index),
    the value [undefined], or a string. *)
Inductive Slot : Type :=
| hole
| undefined
| str (s : string).

Record State : Type := mkState {
  images : list string;
  imageLinks : list Slot;
  previewIndex : Z
}.

(** [arr.filter((_, i) => p(i))]: [filter] does not visit holes; the result
    is a new array without holes. *)
Fixpoint filter_index_from (p : Z -> bool) (i : Z) (arr : list Slot) : list Slot :=
  match arr with
  | [] => []
  | hole :: arr' => filter_index_from p (i + 1) arr'
  | x :: arr' =>
      if p i then x :: filter_index_from p (i + 1) arr'
      else filter_index_from p (i + 1) arr'
  end.

Definition filter_index (p : Z -> bool) (arr : list Slot) : list Slot :=
  filter_index_from p 0 arr.

(** [[...arr]]: the iterator yields [undefined] at a hole. *)
Definition spread (arr : list Slot) : list Slot :=
  (fun x => match x with hole => undefined | _ => x end) <$> arr.

(** [arr[index] = v] for an index that is a natural number: inside the
    array the position is set; at or past the end the array grows to
    [index + 1] and the positions skipped are holes. *)
Definition assign (index : nat) (v : Slot) (arr : list Slot) : list Slot :=
  if decide (index < length arr)%nat then <[index := v]> arr
  else arr ++ replicate (index - length arr) hole ++ [v].

Definition handleRemoveImage (index : Z) (s : State) : State :=
  mkState
    (Js.filter_index (fun i => Js.neq i index) (images s))
    (filter_index (fun i => Js.neq i index) (imageLinks s))
    (if previewIndex s >=? Js.len (images s) - 1
     then Z.max 0 (Js.len (images s) - 2) else previewIndex s).

Definition handleUpdateLink (index : nat) (link : string) (s : State) : State :=
  mkState (images s) (assign index (str link) (spread (imageLinks s)))
          (previewIndex s).

End SparseEditor.

(** ** src/components/profile/ImageLightbox.tsx *)

Module ImageLightbox.

(** The two [useState] cells. The props [images] (through its length
    [total]), [initialIndex] and [isOpen] are arguments of the handlers. *)
Record State : Type := mkState { currentIndex : Z; mounted : bool }.

Definition setCurrentIndex (f : Z -> Z) (s : State) : State :=
  mkState (f (currentIndex s)) (mounted s).
Definition setMounted (v : bool) (s : State) : State :=
  mkState (currentIndex s) v.

(** First render: [useState(initialIndex)], [useState(false)]. *)
Definition init (initialIndex : Z) : State := mkState initialIndex false.

(** The effects that run after the first render:
    [setMounted(true)] and [setCurrentIndex(initialIndex)]. *)
Definition after_mount (initialIndex : Z) (s : State) : State :=
  setCurrentIndex (fun _ => initialIndex) (setMounted true s).

(** "Update index when initialIndex changes": the effect with dependency
    [[initialIndex]], on a later render that passes another value. *)
Definition initialIndex_changed (initialIndex : Z) (s : State) : State :=
  setCurrentIndex (fun _ => initialIndex) s.

Definition handlePrevious (total : Z) (s : State) : State :=
  setCurrentIndex (fun prev => if prev >? 0 then prev - 1 else total - 1) s.

Definition handleNext (total : Z) (s : State) : State :=
  setCurrentIndex (fun prev => if prev <? total - 1 then prev + 1 else 0) s.

(** What the user can do to the overlay. *)
Inductive Event : Type :=
| KeyDown (key : string)
| ClickClose
| ClickBackdrop
| ClickImage
| ClickPrevious
| ClickNext
| ClickThumbnail (idx : nat).

(** [handleKeyNav]; the listener is on the document only while
    [isOpen && images.length > 1]. *)
Definition handleKeyNav (total : Z) (key : string) (s : State) : State :=
  let s1 := if String.eqb key "ArrowLeft" then handlePrevious total s else s in
  if String.eqb key "ArrowRight" then handleNext total s1 else s1.

(** One event: the next state and whether [onClose] was called. Pointer
    events reach the overlay only when it is rendered ([isOpen && mounted]),
    the arrows and the thumbnails only when [images.length > 1]. *)
Definition handle (total : Z) (isOpen : bool) (ev : Event) (s : State)
  : State * bool :=
  match ev with
  | KeyDown key =>
      (if isOpen && (total >? 1) then handleKeyNav total key s else s,
       isOpen && String.eqb key "Escape")
  | ClickClose | ClickBackdrop => (s, isOpen && mounted s)
  | ClickImage => (s, false)
  | ClickPrevious =>
      (if isOpen && mounted s && (total >? 1) then handlePrevious total s else s, false)
  | ClickNext =>
      (if isOpen && mounted s && (total >? 1) then handleNext total s else s, false)
  | ClickThumbnail idx =>
      (if isOpen && mounted s && (total >? 1) && (Z.of_nat idx <? total)
       then setCurrentIndex (fun _ => Z.of_nat idx) s else s, false)
  end.

(** [const currentLink = imageLinks[currentIndex]] followed by
    [{currentLink && ...}]: the link the "Open Link" button points to, if the
    button is rendered. *)
Definition currentLink (imageLinks : list string) (s : State) : option string :=
  if currentIndex s <? 0 then None
  else
    match imageLinks !! Z.to_nat (currentIndex s) with
    | Some link => if Js.truthy link then Some link else None
    | None => None
    end.

End ImageLightbox.

(** ** src/components/profile/ContentBlock.tsx *)

Module ContentBlock.

(** [activeIndex] and [lightboxOpen] are the component's own cells;
    [lightbox] is the state of the [ImageLightbox] child, which exists
    exactly while the child is rendered ([lightboxOpen], inside the carousel). *)
Record State : Type := mkState {
  activeIndex : Z;
  lightboxOpen : bool;
  lightbox : option ImageLightbox.State
}.

Definition initial : State := mkState 0 false None.

(** [setActiveIndex(f)]. The child receives [initialIndex={activeIndex}]:
    when the value changes, the child's effect on [[initialIndex]] runs. *)
Definition setActiveIndex (f : Z -> Z) (s : State) : State :=
  let a := f (activeIndex s) in
  mkState a (lightboxOpen s)
    (if a =? activeIndex s then lightbox s
     else ImageLightbox.initialIndex_changed a <$> lightbox s).

(** [images.length] is [total]. *)
Definition handlePrevious (total : Z) (s : State) : State :=
  setActiveIndex (fun prev => if prev >? 0 then prev - 1 else total - 1) s.

Definition handleNext (total : Z) (s : State) : State :=
  setActiveIndex (fun prev => if prev <? total - 1 then prev + 1 else 0) s.

(** [setLightboxOpen(true)]: a closed lightbox is mounted with the current
    [activeIndex] as [initialIndex] and its mount effects run. *)
Definition handleImageClick (s : State) : State :=
  if lightboxOpen s then s
  else
    mkState (activeIndex s) true
      (Some (ImageLightbox.after_mount (activeIndex s)
               (ImageLightbox.init (activeIndex s)))).

(** [onClose={() => setLightboxOpen(false)}]: the child is unmounted. *)
Definition closeLightbox (s : State) : State :=
  mkState (activeIndex s) false None.

Inductive Event : Type :=
| ClickPrevious
| ClickNext
| ClickDot (index : nat)
| ClickImage
| Lightbox (ev : ImageLightbox.Event).

(** One event on a block with [total] images. The carousel is rendered
    only when [total] is not 0, its arrows and dots only when [total > 1]. *)
Definition step (total : Z) (ev : Event) (s : State) : State :=
  match ev with
  | ClickPrevious => if total >? 1 then handlePrevious total s else s
  | ClickNext => if total >? 1 then handleNext total s else s
  | ClickDot index =>
      if (total >? 1) && (Z.of_nat index <? total)
      then setActiveIndex (fun _ => Z.of_nat index) s else s
  | ClickImage => if total =? 0 then s else handleImageClick s
  | Lightbox ev =>
      match lightbox s with
      | None => s
      | Some l =>
          let '(l', closed) := ImageLightbox.handle total (lightboxOpen s) ev l in
          if closed then closeLightbox s
          else mkState (activeIndex s) (lightboxOpen s) (Some l')
      end
  end.

Definition run (total : Z) (evs : list Event) (s : State) : State :=
  fold_left (fun s ev => step total ev s) evs s.

End ContentBlock.

(** ** [verifyToken], the helper both API routes define in the same words *)

Module Auth.

(** A claim of the token's payload as JavaScript sees it. *)
Inductive Value : Type :=
| undefined
| str (s : string)
| other.                (* null, a number, an object ... *)

(** [a !== env] for an environment variable, which is a string or undefined. *)
Definition strict_neq (a : Value) (env : option string) : bool :=
  match a, env with
  | undefined, None => false
  | str s, Some t => negb (String.eqb s t)
  | _, _ => true
  end.

Section VerifyToken.

Variable Payload : Type.
(** [jwtVerify(token, secret)] with the secret of the deployment; [None]
    when it throws (bad signature, expired, malformed). *)
Variable jwtVerify : string -> option Payload.
(** [payload.email] *)
Variable email : Payload -> Value.
(** [process.env.ADMIN_EMAIL] *)
Variable ADMIN_EMAIL : option string.

(** [authHeader] is [request.headers.get('Authorization')]. *)
Definition verifyToken (authHeader : option string) : option Payload :=
  match authHeader with
  | None => None
  | Some h =>
      if negb (Js.truthy h) || negb (Js.startsWith h "Bearer ") then None
      else
        let token := Js.substring_from 7 h in
        match jwtVerify token with
        | None => None
        | Some payload =>
            if strict_neq (email payload) ADMIN_EMAIL then None else Some payload
        end
  end.

End VerifyToken.

End Auth.

(** ** src/app/api/upload/route.ts *)

Module UploadRoute.

Inductive Body : Type :=
| error (message : string)
| uploaded (imageUrl fileName : string) (fileSize : Z).

(** [NextResponse.json(body, { status })] *)
Inductive Response : Type := json (status : Z) (body : Body).

Definition validTypes : list string :=
  ["image/jpeg"; "image/jpg"; "image/png"; "image/gif"; "image/webp"].
Definition maxSize : Z := 5 * 1024 * 1024.

(** The two validation steps of [POST]: the response that rejects the
    file, if any. *)
Definition validate (file : File.t) : option Response :=
  if negb (Js.includes validTypes (File.type file)) then
    Some (json 400 (error "Invalid file type. Only JPEG, PNG, GIF, and WebP are allowed."))
  else if File.size file >? maxSize then
    Some (json 400 (error "File too large. Maximum size is 5MB."))
  else None.

Section POST.

(** Base64 of the file's bytes; [None] when reading them throws. *)
Variable base64 : File.t -> option string.

(** [user] says whether [verifyToken(request)] returned a payload;
    [formData] is [None] when [request.formData()] throws, [Some None]
    when the form has no [image] entry. *)
Definition POST (user : bool) (formData : option (option File.t)) : Response :=
  if negb user then json 401 (error "Unauthorized")
  else
    match formData with
    | None => json 500 (error "Failed to upload image")
    | Some None => json 400 (error "No image file provided")
    | Some (Some file) =>
        match validate file with
        | Some r => r
        | None =>
            match base64 file with
            | None => json 500 (error "Failed to upload image")
            | Some b =>
                json 200
                  (uploaded ("data:" +:+ File.type file +:+ ";base64," +:+ b)
                            (File.name file) (File.size file))
            end
        end
    end.

End POST.

Section Route.

Variable Payload : Type.
Variable jwtVerify : string -> option Payload.
Variable email : Payload -> Auth.Value.
Variable ADMIN_EMAIL : option string.
Variable base64 : File.t -> option string.

(** The exported handler on a request: [verifyToken] first, then the rest. *)
Definition route (authHeader : option string) (formData : option (option File.t))
  : Response :=
  POST base64
    (match Auth.verifyToken Payload jwtVerify email ADMIN_EMAIL authHeader with
     | Some _ => true
     | None => false
     end)
    formData.

End Route.

End UploadRoute.

(** ** src/app/api/profile/route.ts *)

Module ProfileRoute.

Section GET.

(** JSON documents and the document of [@/lib/defaultProfile]. *)
Variable Profile : Type.
Variable defaultProfile : Profile.

(** The database behind [neon(DATABASE_URL)]. Every query either throws
    ([None]) or answers; in both cases the database goes on in some state. *)
Variable Db : Type.
Variable connect : Db -> bool.                            (* [neon(...)] returns *)
Variable create_table : Db -> Db * option unit.           (* CREATE TABLE IF NOT EXISTS *)
Variable select_latest : Db -> Db * option (list Profile). (* SELECT data ... LIMIT 1 *)
Variable insert : Profile -> Db -> Db * option unit.      (* INSERT INTO portfolio *)

(** [NextResponse.json(body)] or [NextResponse.json(body, { status })]. *)
Inductive Response : Type := json (status : Z) (body : Profile).

Definition GET (db : Db) : Db * Response :=
  let fallback db' := (db', json 200 defaultProfile) in
  if negb (connect db) then fallback db
  else
    match create_table db with
    | (db1, None) => fallback db1
    | (db1, Some _) =>
        match select_latest db1 with
        | (db2, None) => fallback db2
        | (db2, Some []) =>
            match insert defaultProfile db2 with
            | (db3, None) => fallback db3
            | (db3, Some _) => (db3, json 200 defaultProfile)
            end
        | (db2, Some (row :: _)) => (db2, json 200 row)
        end
    end.

End GET.

Section POST.

Variable Profile : Type.
Variable Db : Type.
Variable Id : Type.
Variable connect : Db -> bool.
Variable select_latest_id : Db -> Db * option (list Id).  (* SELECT id ... LIMIT 1 *)
Variable insert : Profile -> Db -> Db * option unit.      (* INSERT INTO portfolio *)
Variable update : Id -> Profile -> Db -> Db * option unit. (* UPDATE ... WHERE id *)

Inductive PostBody : Type :=
| saved                      (* { success: true, message: 'Profile saved successfully' } *)
| failure (error : string).

Inductive PostResponse : Type := post_json (status : Z) (body : PostBody).

(** [user] says whether [verifyToken(request)] returned a payload; [body]
    is [None] when [request.json()] throws. *)
Definition POST (user : bool) (body : option Profile) (db : Db) : Db * PostResponse :=
  if negb user then (db, post_json 401 (failure "Unauthorized"))
  else
    let failed db' := (db', post_json 500 (failure "Failed to save profile")) in
    match body with
    | None => failed db
    | Some profile =>
        if negb (connect db) then failed db
        else
          match select_latest_id db with
          | (db1, None) => failed db1
          | (db1, Some []) =>
              match insert profile db1 with
              | (db2, None) => failed db2
              | (db2, Some _) => (db2, post_json 200 saved)
              end
          | (db1, Some (id :: _)) =>
              match update id profile db1 with
              | (db2, None) => failed db2
              | (db2, Some _) => (db2, post_json 200 saved)
              end
          end
    end.

End POST.

End ProfileRoute.

(** * Specification vocabulary *)

Import ContentBlockEditor.

(** The content block handed to [onSave]. *)
Record Block : Type := mkBlock {
  block_type : ContentBlockType;
  block_content : string;
  block_duration : option string;
  block_images : option (list string);
  block_imageLinks : option (list string)
}.

(** The blocks a handler emitted, in order. *)
Fixpoint saved_blocks (eff : list Effect) : list Block :=
  match eff with
  | [] => []
  | onSave t c d i l :: eff' => mkBlock t c d i l :: saved_blocks eff'
  | _ :: eff' => saved_blocks eff'
  end.

(** The block invariant of the data model: text or at least one image. *)
Definition block_nonempty (b : Block) : Prop :=
  block_content b <> "" \/ exists l, block_images b = Some l /\ l <> [].

(** A text that [trim] empties: every code unit is white space. *)
Fixpoint blank (s : string) : bool :=
  match s with
  | EmptyString => true
  | String c s' => Js.is_white_space c && blank s'
  end.

(** The requests a handler sent, in order. *)
Fixpoint requests (eff : list Effect) : list File.t :=
  match eff with
  | [] => []
  | fetch_upload f _ :: eff' => f :: requests eff'
  | _ :: eff' => requests eff'
  end.

(** The alerts a handler raised, in order. *)
Fixpoint alerts (eff : list Effect) : list string :=
  match eff with
  | [] => []
  | alert m :: eff' => m :: alerts eff'
  | _ :: eff' => alerts eff'
  end.

(** Events of the carousel that move its index. *)
Definition carousel_navigation (ev : ContentBlock.Event) : Prop :=
  match ev with
  | ContentBlock.ClickPrevious | ContentBlock.ClickNext
  | ContentBlock.ClickDot _ => True
  | _ => False
  end.

(** The index the open lightbox shows. *)
Definition shown (s : ContentBlock.State) : option Z :=
  ImageLightbox.currentIndex <$> ContentBlock.lightbox s.

(** A network for running the handler: the [i]-th request gets the [i]-th
    answer of a list (a missing answer rejects); the parser is the identity,
    so a body is its own [error] and its own [imageUrl]. *)
Module TestNet.
Definition JSON_parse (text : string) : option string := Some text.
Definition get_error (j : string) : string := j.
Definition get_imageUrl (j : string) : option string := Some j.
Definition fetch (answers : list FetchOutcome) (i : nat) (_ : File.t) (_ : string)
  : FetchOutcome := default rejects (answers !! i).
Definition handleFileUpload (answers : list FetchOutcome) :=
  ContentBlockEditor.handleFileUpload string JSON_parse get_error get_imageUrl
    (fetch answers).
End TestNet.

(** How one request of the batch ends. *)
Inductive Outcome : Type :=
| Uploaded (imageUrl : string)    (* ok response with a readable reference *)
| Failed (error : string)         (* response that is not ok *)
| Thrown.                         (* something threw: no response, bad body *)

Section UploadOutcome.

Variable Json : Type.
Variable JSON_parse : string -> option Json.
Variable get_error : Json -> string.
Variable get_imageUrl : Json -> option string.
Variable fetch : nat -> File.t -> string -> FetchOutcome.

Definition request_outcome (token : string) (i : nat) (file : File.t) : Outcome :=
  match fetch i file token with
  | rejects => Thrown
  | responds true text =>
      match JSON_parse text ≫= get_imageUrl with
      | Some url => Uploaded url
      | None => Thrown
      end
  | responds false text =>
      if Js.str_includes text "{" then
        match JSON_parse text with
        | Some j => Failed (get_error j)
        | None => Thrown
        end
      else Failed text
  end.

(** The outcomes of the requests for [files], the first being request [i]. *)
Fixpoint request_outcomes (token : string) (i : nat) (files : list File.t) : list Outcome :=
  match files with
  | [] => []
  | file :: rest => request_outcome token i file :: request_outcomes token (S i) rest
  end.

End UploadOutcome.

(** The references of the uploads that succeeded, in order. *)
Fixpoint uploaded (outs : list Outcome) : list string :=
  match outs with
  | [] => []
  | Uploaded url :: outs' => url :: uploaded outs'
  | _ :: outs' => uploaded outs'
  end.

(** The alerts for the uploads that failed, in order. *)
Fixpoint failure_alerts (files : list File.t) (outs : list Outcome) : list string :=
  match files, outs with
  | file :: files', Failed error :: outs' =>
      ("Failed to upload " +:+ File.name file +:+ ": " +:+ error)
        :: failure_alerts files' outs'
  | _ :: files', _ :: outs' => failure_alerts files' outs'
  | _, _ => []
  end.

(** An in-memory database to run [GET] on: the rows newest first, and a
    switch that makes every query throw. *)
Module MemDb.
Record t : Type := mk { rows : list string; down : bool }.
Definition connect (db : t) : bool := true.
Definition query {A} (db : t) (db' : t) (a : A) : t * option A :=
  if down db then (db, None) else (db', Some a).
Definition create_table (db : t) : t * option unit := query db db tt.
Definition select_latest (db : t) : t * option (list string) :=
  query db db (take 1 (rows db)).
Definition insert (p : string) (db : t) : t * option unit :=
  query db (mk (p :: rows db) (down db)) tt.
Definition GET (defaultProfile : string) (db : t) : t * ProfileRoute.Response string :=
  ProfileRoute.GET string defaultProfile t connect create_table select_latest insert db.
End MemDb.

(** The editor's preview index points at an image, or is 0 when there is
    none. *)
Definition preview_in_range (s : State) : Prop :=
  (images s = [] /\ previewIndex s = 0) \/
  (0 <= previewIndex s < Js.len (images s)).

(** The cells of the editor other than the two sequences, the preview
    index and the upload flag. *)
Definition form_cells (s : State) :=
  (type s, content s, hasDuration s, duration s, hasImages s).

(** The block an [initialData] prop describes. *)
Definition block_of (d : InitialData) : Block :=
  mkBlock (init_type d) (init_content d) (init_duration d)
          (init_images d) (init_imageLinks d).

(** The states of a block that the component can be in: the lightbox child
    exists exactly while [lightboxOpen], with its mount effects run, and both
    indices point into the [total] images. *)
Definition block_ok (total : Z) (s : ContentBlock.State) : Prop :=
  0 <= ContentBlock.activeIndex s < total /\
  match ContentBlock.lightbox s with
  | None => ContentBlock.lightboxOpen s = false
  | Some l =>
      ContentBlock.lightboxOpen s = true /\
      ImageLightbox.mounted l = true /\
      0 <= ImageLightbox.currentIndex l < total
  end.

(** The [portfolio] table in memory. [None]: the table does not exist yet.
    The rows are kept newest first. Ids are SERIAL and no statement of the
    routes deletes a row, so the id of a row is its position counted from the
    oldest row, starting at 1. A document read back from the JSONB column is
    the document that was written. *)
Module Portfolio.
Section Table.
Variable Profile : Type.
Definition Db : Type := option (list Profile).
Definition connect (db : Db) : bool := true.
Definition create_table (db : Db) : Db * option unit :=
  (Some (default [] db), Some tt).
Definition select_latest (db : Db) : Db * option (list Profile) :=
  (db, take 1 <$> db).
Definition select_latest_id (db : Db) : Db * option (list nat) :=
  (db, (fun rows => match rows with
                    | [] => []
                    | _ :: older => [S (length older)]
                    end) <$> db).
Definition insert (p : Profile) (db : Db) : Db * option unit :=
  match db with
  | None => (db, None)
  | Some rows => (Some (p :: rows), Some tt)
  end.
Definition update (id : nat) (p : Profile) (db : Db) : Db * option unit :=
  match db with
  | None => (db, None)
  | Some rows =>
      (Some (if (1 <=? id)%nat && (id <=? length rows)%nat
             then <[(length rows - id)%nat := p]> rows else rows),
       Some tt)
  end.
Variable defaultProfile : Profile.
Definition GET : Db -> Db * ProfileRoute.Response Profile :=
  ProfileRoute.GET Profile defaultProfile Db connect create_table select_latest insert.
Definition POST : bool -> option Profile -> Db -> Db * ProfileRoute.PostResponse :=
  ProfileRoute.POST Profile Db nat connect select_latest_id insert update.
End Table.
End Portfolio.

(** The number of rows of the table (0 when there is no table). *)
Definition row_count {Profile} (db : Portfolio.Db Profile) : nat :=
  length (default [] db).

(** The editor talking to the upload route: the network of [handleFileUpload]
    is the route itself, reached with the header and the form the editor
    builds; [stringify] writes the response body on the wire. The header
    reaches the route as the editor wrote it, which is what [fetch] does for
    the values that are [sent_verbatim]. *)
Section ServerNet.

Variable Payload : Type.
Variable jwtVerify : string -> option Payload.
Variable email : Payload -> Auth.Value.
Variable ADMIN_EMAIL : option string.
Variable base64 : File.t -> option string.
Variable stringify : UploadRoute.Body -> string.

(** [response.ok]: the status is in the range 200-299. *)
Definition response_ok (status : Z) : bool := (200 <=? status) && (status <=? 299).

Definition server_fetch (i : nat) (file : File.t) (token : string) : FetchOutcome :=
  match UploadRoute.route Payload jwtVerify email ADMIN_EMAIL base64
          (Some ("Bearer " +:+ token)) (Some (Some file)) with
  | UploadRoute.json status body => responds (response_ok status) (stringify body)
  end.

End ServerNet.

(** A wire format and a token check to run the two sides on: a body is
    written as a tag and its text, the only valid token is "good". *)
Module Wire.
Definition stringify (b : UploadRoute.Body) : string :=
  match b with
  | UploadRoute.error m => "{e}" +:+ m
  | UploadRoute.uploaded u _ _ => "{u}" +:+ u
  end.
Definition JSON_parse (text : string) : option (string + string) :=
  match text with
  | String "{" (String "e" (String "}" m)) => Some (inl m)
  | String "{" (String "u" (String "}" u)) => Some (inr u)
  | _ => None
  end.
Definition get_error (j : string + string) : string :=
  match j with inl m => m | inr _ => "undefined" end.
Definition get_imageUrl (j : string + string) : option string :=
  match j with inr u => Some u | inl _ => Some "undefined" end.
Definition jwtVerify (token : string) : option string :=
  if String.eqb token "good" then Some "admin@example.com" else None.
Definition email (payload : string) : Auth.Value := Auth.str payload.
Definition ADMIN_EMAIL : option string := Some "admin@example.com".
Definition base64 (file : File.t) : option string := Some (File.name file).
Definition fetch : nat -> File.t -> string -> FetchOutcome :=
  server_fetch string jwtVerify email ADMIN_EMAIL base64 stringify.
Definition handleFileUpload :=
  ContentBlockEditor.handleFileUpload (string + string) JSON_parse get_error
    get_imageUrl fetch.
End Wire.

(** The status of a response of the upload route, and of the profile route. *)
Definition upload_status (r : UploadRoute.Response) : Z :=
  match r with UploadRoute.json status _ => status end.

Definition post_status (r : ProfileRoute.PostResponse) : Z :=
  match r with ProfileRoute.post_json status _ => status end.

(** The reference the upload route builds for a file whose bytes encode to [b]. *)
Definition data_url (file : File.t) (b : string) : string :=
  "data:" +:+ File.type file +:+ ";base64," +:+ b.

(** The three cells of an editor state, its links read as an array. *)
Definition of_dense (s : State) : SparseEditor.State :=
  SparseEditor.mkState (images s) (SparseEditor.str <$> imageLinks s) (previewIndex s).

(** An array without holes, and an array with its holes dropped. *)
Definition no_holes (arr : list SparseEditor.Slot) : Prop :=
  Forall (fun x => x <> SparseEditor.hole) arr.

Fixpoint drop_holes (arr : list SparseEditor.Slot) : list SparseEditor.Slot :=
  match arr with
  | [] => []
  | SparseEditor.hole :: arr' => drop_holes arr'
  | x :: arr' => x :: drop_holes arr'
  end.

(** A header value that [fetch] sends as it is: it has no NUL, LF or CR
    (with one of these the call throws a TypeError) and no tab or space at
    either end (these are stripped before sending). *)
Definition header_char_ok (c : ascii) : bool :=
  let n := Ascii.nat_of_ascii c in
  negb ((n =? 0)%nat || (n =? 10)%nat || (n =? 13)%nat).

Definition header_edge_ok (c : ascii) : bool :=
  let n := Ascii.nat_of_ascii c in
  negb ((n =? 9)%nat || (n =? 32)%nat).

Fixpoint header_body_ok (v : string) : bool :=
  match v with
  | EmptyString => true
  | String c EmptyString => header_char_ok c && header_edge_ok c
  | String c v' => header_char_ok c && header_body_ok v'
  end.

Definition sent_verbatim (v : string) : bool :=
  match v with
  | EmptyString => true
  | String c _ => header_edge_ok c && header_body_ok v
  end.

(** * Lemmas and theorems *)

(** ** Facts about the JavaScript primitives *)

Lemma trimStart_blank s : blank s = true -> Js.trimStart s = "".
Proof.
  induction s as [|c s IH]; simpl; [done|].
  destruct (Js.is_white_space c); simpl; [exact IH | done].
Qed.

Lemma trimStart_not_blank s :
  blank s = false ->
  exists c t, Js.trimStart s = String c t /\ Js.is_white_space c = false.
Proof.
  induction s as [|c s IH]; simpl; [done|].
  destruct (Js.is_white_space c) eqn:Hc; simpl; [exact IH|].
  intros _. by exists c, s.
Qed.

Lemma trimEnd_head c t :
  Js.is_white_space c = false -> exists u, Js.trimEnd (String c t) = String c u.
Proof.
  intros Hc. simpl. destruct (Js.trimEnd t); [rewrite Hc|]; eauto.
Qed.

(** [content.trim()] is falsy exactly on blank texts. *)
Lemma truthy_trim s : Js.truthy (Js.trim s) = negb (blank s).
Proof.
  unfold Js.trim. destruct (blank s) eqn:Hb; simpl.
  - by rewrite trimStart_blank.
  - destruct (trimStart_not_blank s Hb) as (c & t & -> & Hc).
    destruct (trimEnd_head c t Hc) as [u ->]. done.
Qed.

Lemma len_zero {A} (l : list A) : (Js.len l =? 0) = true <-> l = [].
Proof.
  unfold Js.len. destruct l; simpl; split; intros H; done.
Qed.

Lemma len_pos {A} (l : list A) : (0 <? Js.len l) = true <-> l <> [].
Proof.
  unfold Js.len. destruct l; simpl; split; intros H; done.
Qed.

(** Past the excluded index the filter keeps everything. *)
Lemma filter_index_from_past {A} (l : list A) (t m : Z) :
  t < m -> Js.filter_index_from (fun j => Js.neq j t) m l = l.
Proof.
  revert m. induction l as [|y l IH]; intros m Hm; simpl; [done|].
  unfold Js.neq at 1. destruct (Z.eqb_spec m t) as [->|_]; [lia|].
  simpl. f_equal. apply IH. lia.
Qed.

(** Filtering out one index is deleting that position. *)
Lemma filter_index_from_delete {A} (l : list A) (i : nat) (k : Z) :
  Js.filter_index_from (fun j => Js.neq j (k + Z.of_nat i)) k l = delete i l.
Proof.
  revert i k. induction l as [|x l IH]; intros i k; [by destruct i|].
  cbn [Js.filter_index_from]. unfold Js.neq at 1.
  destruct (Z.eqb_spec k (k + Z.of_nat i)) as [Heq|Hne]; cbn [negb].
  - destruct i as [|i]; [|lia]. cbn [delete list_delete].
    apply filter_index_from_past. lia.
  - destruct i as [|i]; [lia|]. cbn [delete list_delete]. f_equal.
    replace (k + Z.of_nat (S i)) with ((k + 1) + Z.of_nat i) by lia. apply IH.
Qed.

Lemma filter_index_delete {A} (l : list A) (i : nat) :
  Js.filter_index (fun j => Js.neq j (Z.of_nat i)) l = delete i l.
Proof.
  unfold Js.filter_index.
  rewrite <- (filter_index_from_delete l i 0). done.
Qed.

(** * The editor's save operation *)

(** What [handleSave] does on each side of its guard. *)
Lemma handleSave_rejects initialData s :
  blank (content s) = true -> images s = [] ->
  handleSave initialData s
  = (s, [alert "Please add either text or at least one image"]).
Proof.
  intros Hb Hi. unfold handleSave.
  rewrite truthy_trim, Hb, Hi. done.
Qed.

Lemma handleSave_accepts initialData s :
  blank (content s) = false \/ images s <> [] ->
  handleSave initialData s
  = (fst (handleClose initialData s),
     [onSave (type s) (content s)
        (if hasDuration s && Js.truthy (Js.trim (duration s))
         then Some (duration s) else None)
        (if hasImages s && (0 <? Js.len (images s)) then Some (images s) else None)
        (if hasImages s && (0 <? Js.len (imageLinks s))
         then Some (imageLinks s) else None);
      onClose]).
Proof.
  intros H. unfold handleSave. rewrite truthy_trim.
  assert (negb (negb (blank (content s))) && (Js.len (images s) =? 0) = false) as ->.
  { destruct H as [-> | Hi]; [done|].
    destruct (Js.len (images s) =? 0) eqn:E; [|by rewrite andb_false_r].
    apply len_zero in E. done. }
  destruct initialData; done.
Qed.

Lemma blank_nonempty s : blank s = false -> s <> "".
Proof. by intros H ->. Qed.

(** C1 (amended). Saving with a text that [trim] empties (in particular the
    empty text) and zero images is rejected: the state is returned unchanged,
    only an alert is raised and no block is emitted. Saving with at least one
    stored image succeeds whatever the text, and saving with a text that has
    a non-white-space code unit succeeds with zero images. Every block
    emitted from a state whose "has images" toggle is on, or whose text is
    not the empty string, has non-empty content or a non-empty images field. *)
Theorem handleSave_block_nonempty (initialData : option InitialData) (s : State) :
  (blank (content s) = true -> images s = [] ->
   fst (handleSave initialData s) = s /\
   snd (handleSave initialData s)
   = [alert "Please add either text or at least one image"] /\
   saved_blocks (snd (handleSave initialData s)) = []) /\
  (images s <> [] ->
   exists b, saved_blocks (snd (handleSave initialData s)) = [b]) /\
  (blank (content s) = false ->
   exists b, saved_blocks (snd (handleSave initialData s)) = [b]) /\
  (forall b, b ∈ saved_blocks (snd (handleSave initialData s)) ->
   hasImages s = true \/ content s <> "" -> block_nonempty b).
Proof.
  split; [|split; [|split]].
  - intros Hb Hi. by rewrite handleSave_rejects.
  - intros Hi. rewrite handleSave_accepts by (by right). simpl. eauto.
  - intros Hb. rewrite handleSave_accepts by (by left). simpl. eauto.
  - intros b Hin Hstate.
    destruct (blank (content s)) eqn:Hb.
    + destruct (images s) as [|x l] eqn:Hi.
      * rewrite handleSave_rejects in Hin by done. simpl in Hin.
        by apply elem_of_nil in Hin.
      * rewrite handleSave_accepts in Hin by (right; by rewrite Hi).
        simpl in Hin. apply list_elem_of_singleton in Hin. subst b.
        unfold block_nonempty. simpl.
        destruct Hstate as [Ht | Hc]; [|by left].
        right. rewrite Ht, Hi. simpl. exists (x :: l). done.
    + rewrite handleSave_accepts in Hin by (by left).
      simpl in Hin. apply list_elem_of_singleton in Hin. subst b.
      left. simpl. by apply blank_nonempty.
Qed.

(** The theorem at three editor states: nothing entered; one image and no
    text with the toggle on; a text and no image. *)
Lemma handleSave_block_nonempty_witness :
  saved_blocks (snd (handleSave None initial)) = [] /\
  (exists b, saved_blocks
     (snd (handleSave None (mkState title "" false "" true ["data:A"] [""] false 0)))
     = [b]) /\
  (exists b, saved_blocks
     (snd (handleSave None (mkState context "Past Projects" false "" false [] [] false 0)))
     = [b]) /\
  (forall b,
     b ∈ saved_blocks
       (snd (handleSave None (mkState title "" false "" true ["data:A"] [""] false 0))) ->
     block_nonempty b).
Proof.
  destruct (handleSave_block_nonempty None initial) as (Hrej & _).
  destruct (handleSave_block_nonempty None
              (mkState title "" false "" true ["data:A"] [""] false 0))
    as (_ & Himg & _ & Hinv).
  destruct (handleSave_block_nonempty None
              (mkState context "Past Projects" false "" false [] [] false 0))
    as (_ & _ & Htxt & _).
  split; [|split; [|split]].
  - apply Hrej; reflexivity.
  - apply Himg. simpl. intros H. discriminate H.
  - apply Htxt. reflexivity.
  - intros b Hb. apply Hinv; [exact Hb|]. left. reflexivity.
Defined.

(** C1 as stated fails twice. Editing a block that has one image and no
    text, switching "Add Photos" off and saving emits a block with empty
    content and no images field. And a text of one space is not empty, yet
    saving it with zero images is rejected. *)
Lemma handleSave_block_nonempty_counterexample :
  (let d := Build_InitialData title "" None (Some ["data:A"]) (Some [""]) in
   let s := toggleHasImages false (load (Some d) initial) in
   images s = ["data:A"] /\
   saved_blocks (snd (handleSave (Some d) s))
   = [mkBlock title "" None None None] /\
   ~ block_nonempty (mkBlock title "" None None None)) /\
  (let s := setContent " " initial in
   content s <> "" /\ images s = [] /\
   handleSave None s = (s, [alert "Please add either text or at least one image"])).
Proof.
  split.
  - simpl. split; [reflexivity|]. split; [reflexivity|].
    unfold block_nonempty. simpl.
    intros [H | (l & H & _)]; [by apply H | discriminate].
  - simpl. split; [discriminate|]. split; reflexivity.
Qed.

(** * Removing an image *)

Lemma handleRemoveImage_images i s :
  images (handleRemoveImage (Z.of_nat i) s) = delete i (images s).
Proof.
  unfold handleRemoveImage.
  destruct (previewIndex s >=? Js.len (images s) - 1); simpl;
    apply filter_index_delete.
Qed.

Lemma handleRemoveImage_imageLinks i s :
  imageLinks (handleRemoveImage (Z.of_nat i) s) = delete i (imageLinks s).
Proof.
  unfold handleRemoveImage.
  destruct (previewIndex s >=? Js.len (images s) - 1); simpl;
    apply filter_index_delete.
Qed.

(** On lists of links, which are the link arrays without holes: removing a
    valid index [i] from a state whose [images] and [imageLinks] have the same
    length drops exactly position [i] of both. *)
Lemma handleRemoveImage_dense_aligned (s : State) (i : nat) :
  length (images s) = length (imageLinks s) ->
  (i < length (images s))%nat ->
  let s' := handleRemoveImage (Z.of_nat i) s in
  images s' = delete i (images s) /\
  imageLinks s' = delete i (imageLinks s) /\
  length (images s') = length (imageLinks s') /\
  S (length (images s')) = length (images s) /\
  (forall j : nat, (j < i)%nat ->
     images s' !! j = images s !! j /\ imageLinks s' !! j = imageLinks s !! j) /\
  (forall j : nat, (i <= j)%nat ->
     images s' !! j = images s !! S j /\ imageLinks s' !! j = imageLinks s !! S j).
Proof.
  intros Hlen Hi s'. subst s'.
  rewrite handleRemoveImage_images, handleRemoveImage_imageLinks.
  assert (is_Some (images s !! i)) as Hsi by (by apply lookup_lt_is_Some).
  assert (is_Some (imageLinks s !! i)) as Hsl
      by (apply lookup_lt_is_Some; by rewrite <- Hlen).
  split; [done|]. split; [done|].
  rewrite !length_delete by done.
  split; [by rewrite Hlen|]. split; [lia|]. split.
  - intros j Hj. by rewrite !list_lookup_delete_lt.
  - intros j Hj. by rewrite !list_lookup_delete_ge.
Qed.

(** C5. When the removed index is the preview index and the last index,
    the preview index after the removal is [max(0, newLength - 1)], where
    [newLength] is the length before minus one. *)
Theorem handleRemoveImage_preview_clamped (s : State) (i : Z) :
  0 < Js.len (images s) ->
  i = Js.len (images s) - 1 ->
  previewIndex s = i ->
  let s' := handleRemoveImage i s in
  Js.len (images s') = Js.len (images s) - 1 /\
  previewIndex s' = Z.max 0 (Js.len (images s') - 1).
Proof.
  intros Hn Hi Hp s'. subst s'.
  assert (i = Z.of_nat (Z.to_nat i)) as Hnat by lia.
  assert (Js.len (images (handleRemoveImage i s)) = Js.len (images s) - 1) as Hlen.
  { rewrite Hnat, handleRemoveImage_images. unfold Js.len in *.
    rewrite length_delete; [lia|]. apply lookup_lt_is_Some. lia. }
  split; [exact Hlen|]. rewrite Hlen.
  unfold handleRemoveImage.
  assert ((previewIndex s >=? Js.len (images s) - 1) = true) as ->.
  { apply Z.geb_le. lia. }
  simpl. f_equal. lia.
Qed.

Lemma handleRemoveImage_preview_clamped_witness :
  let s := mkState title "" false "" true ["A"; "B"; "C"] [""; "x"; ""] false 2 in
  Js.len (images (handleRemoveImage 2 s)) = 2 /\
  previewIndex (handleRemoveImage 2 s) = 1.
Proof.
  intros s.
  apply (handleRemoveImage_preview_clamped s 2); reflexivity.
Defined.

(** * The "Add Photos" toggle *)

(** C6. The toggle changes the [hasImages] cell and nothing else: the
    stored [images] and [imageLinks] (and every other cell) are what they
    were. When a state that holds images is saved, the emitted block lacks
    the images field exactly when the toggle is off; with the toggle on the
    field is the stored sequence. *)
Theorem toggleHasImages_frame (checked : bool) (s : State) :
  (hasImages (toggleHasImages checked s) = checked /\
   images (toggleHasImages checked s) = images s /\
   imageLinks (toggleHasImages checked s) = imageLinks s /\
   type (toggleHasImages checked s) = type s /\
   content (toggleHasImages checked s) = content s /\
   hasDuration (toggleHasImages checked s) = hasDuration s /\
   duration (toggleHasImages checked s) = duration s /\
   isUploading (toggleHasImages checked s) = isUploading s /\
   previewIndex (toggleHasImages checked s) = previewIndex s) /\
  (forall initialData, images s <> [] ->
   exists b, saved_blocks (snd (handleSave initialData s)) = [b] /\
     (block_images b = None <-> hasImages s = false) /\
     (hasImages s = true -> block_images b = Some (images s))).
Proof.
  split; [done|].
  intros initialData Hi. rewrite handleSave_accepts by (by right). simpl.
  eexists; split; [reflexivity|]. simpl.
  apply len_pos in Hi. rewrite Hi.
  destruct (hasImages s); simpl; split; done.
Qed.

(** Three images are added, the toggle is switched off, the block is saved. *)
Lemma toggleHasImages_frame_witness :
  let s := mkState title "Trips" false "" true ["A"; "B"; "C"] [""; "x"; ""] false 0 in
  images (toggleHasImages false s) = ["A"; "B"; "C"] /\
  exists b, saved_blocks (snd (handleSave None (toggleHasImages false s))) = [b] /\
            block_images b = None.
Proof.
  intros s.
  destruct (toggleHasImages_frame false s) as ((_ & Himg & _) & _).
  split; [exact Himg|].
  destruct (toggleHasImages_frame false (toggleHasImages false s)) as (_ & Hsave).
  destruct (Hsave None) as (b & Hb & Hnone & _).
  - simpl. intros H. discriminate H.
  - exists b. split; [exact Hb|]. apply Hnone. reflexivity.
Defined.

(** * The carousel *)

Lemma next_index_mod (total a : Z) :
  0 <= a < total -> (if a <? total - 1 then a + 1 else 0) = (a + 1) mod total.
Proof.
  intros Ha. destruct (Z.ltb_spec a (total - 1)).
  - symmetry. apply Z.mod_small. lia.
  - replace (a + 1) with total by lia. symmetry. apply Z.mod_same. lia.
Qed.

Lemma previous_index_mod (total a : Z) :
  0 <= a < total ->
  (if a >? 0 then a - 1 else total - 1) = (a - 1 + total) mod total.
Proof.
  intros Ha. destruct (Z.gtb_spec a 0).
  - replace (a - 1 + total) with (a - 1 + 1 * total) by lia.
    rewrite Z.mod_add by lia. symmetry. apply Z.mod_small. lia.
  - replace (a - 1 + total) with (total - 1) by lia.
    symmetry. apply Z.mod_small. lia.
Qed.

Lemma carousel_handleNext_index total s :
  ContentBlock.activeIndex (ContentBlock.handleNext total s)
  = (if ContentBlock.activeIndex s <? total - 1
     then ContentBlock.activeIndex s + 1 else 0).
Proof. reflexivity. Qed.

(** [n] calls of [next()] move an in-range index by [n], circularly. *)
Lemma carousel_next_iter (total : Z) (n : nat) (s : ContentBlock.State) :
  0 <= ContentBlock.activeIndex s < total ->
  ContentBlock.activeIndex (Nat.iter n (ContentBlock.handleNext total) s)
  = (ContentBlock.activeIndex s + Z.of_nat n) mod total.
Proof.
  intros Ha. induction n as [|n IH].
  - simpl. rewrite Z.add_0_r. symmetry. apply Z.mod_small. lia.
  - rewrite Nat.iter_succ, carousel_handleNext_index, IH.
    rewrite next_index_mod by (apply Z.mod_pos_bound; lia).
    rewrite Z.add_mod_idemp_l by lia. f_equal. lia.
Qed.

(** C3 (amended). On a non-empty sequence with [activeIndex] in range,
    [next()] sets [activeIndex] to [(activeIndex + 1) mod total], and [total]
    repeated [next()] calls return [activeIndex] to the value it had before
    them; so [next()] followed by [total] more calls ends on the value the
    first call produced. *)
Theorem carousel_next_circular (total : Z) (s : ContentBlock.State) :
  0 <= ContentBlock.activeIndex s < total ->
  ContentBlock.activeIndex (ContentBlock.handleNext total s)
  = (ContentBlock.activeIndex s + 1) mod total /\
  ContentBlock.activeIndex
    (Nat.iter (Z.to_nat total) (ContentBlock.handleNext total) s)
  = ContentBlock.activeIndex s /\
  ContentBlock.activeIndex
    (Nat.iter (Z.to_nat total) (ContentBlock.handleNext total)
       (ContentBlock.handleNext total s))
  = ContentBlock.activeIndex (ContentBlock.handleNext total s).
Proof.
  intros Ha.
  assert (forall t, 0 <= ContentBlock.activeIndex t < total ->
            ContentBlock.activeIndex
              (Nat.iter (Z.to_nat total) (ContentBlock.handleNext total) t)
            = ContentBlock.activeIndex t) as Hperiod.
  { intros t Ht. rewrite carousel_next_iter by done.
    rewrite Z2Nat.id by lia.
    replace (ContentBlock.activeIndex t + total)
      with (ContentBlock.activeIndex t + 1 * total) by lia.
    rewrite Z.mod_add by lia. apply Z.mod_small. lia. }
  assert (ContentBlock.activeIndex (ContentBlock.handleNext total s)
          = (ContentBlock.activeIndex s + 1) mod total) as Hnext.
  { rewrite carousel_handleNext_index. by apply next_index_mod. }
  split; [exact Hnext|]. split; [by apply Hperiod|].
  apply Hperiod. rewrite Hnext. apply Z.mod_pos_bound. lia.
Qed.

(** Four images, the third one shown. *)
Lemma carousel_next_circular_witness :
  let s := ContentBlock.mkState 2 false None in
  ContentBlock.activeIndex (ContentBlock.handleNext 4 s) = 3 /\
  ContentBlock.activeIndex (Nat.iter 4 (ContentBlock.handleNext 4) s) = 2.
Proof.
  intros s.
  destruct (carousel_next_circular 4 s) as (Hn & Hp & _).
  - simpl. lia.
  - split; [exact Hn | exact Hp].
Defined.

(** C3 as stated counts one call too many: with two images and the first
    one shown, [next()] followed by two more [next()] calls ends on index 1,
    not on the original index 0. *)
Lemma carousel_next_circular_counterexample :
  let s := ContentBlock.initial in
  ContentBlock.activeIndex s = 0 /\
  ContentBlock.activeIndex
    (Nat.iter 2 (ContentBlock.handleNext 2) (ContentBlock.handleNext 2 s)) = 1 /\
  ContentBlock.activeIndex
    (Nat.iter 2 (ContentBlock.handleNext 2) (ContentBlock.handleNext 2 s))
  <> ContentBlock.activeIndex s.
Proof. simpl. repeat split; [reflexivity .. | discriminate]. Qed.

(** * The lightbox *)

Lemma lightbox_event_keeps_activeIndex total ev s :
  ContentBlock.activeIndex (ContentBlock.step total (ContentBlock.Lightbox ev) s)
  = ContentBlock.activeIndex s.
Proof.
  simpl. destruct (ContentBlock.lightbox s) as [l|]; [|done].
  destruct (ImageLightbox.handle total (ContentBlock.lightboxOpen s) ev l)
    as [l' []]; done.
Qed.

Lemma lightbox_events_keep_activeIndex total evs s :
  ContentBlock.activeIndex
    (ContentBlock.run total (ContentBlock.Lightbox <$> evs) s)
  = ContentBlock.activeIndex s.
Proof.
  revert s. induction evs as [|ev evs IH]; intros s; [done|].
  unfold ContentBlock.run in *. simpl fold_left.
  change (fold_left _ (ContentBlock.Lightbox <$> evs) ?t)
    with (ContentBlock.run total (ContentBlock.Lightbox <$> evs) t).
  unfold ContentBlock.run. rewrite IH.
  apply lightbox_event_keeps_activeIndex.
Qed.

Lemma setActiveIndex_reseeds f s l :
  ContentBlock.lightbox s = Some l ->
  f (ContentBlock.activeIndex s) <> ContentBlock.activeIndex s ->
  shown (ContentBlock.setActiveIndex f s) = Some (f (ContentBlock.activeIndex s)).
Proof.
  intros Hl Hne. unfold shown, ContentBlock.setActiveIndex. simpl.
  destruct (Z.eqb_spec (f (ContentBlock.activeIndex s)) (ContentBlock.activeIndex s));
    [done|].
  by rewrite Hl.
Qed.

(** C7 (amended). Opening the lightbox seeds its [currentIndex] with the
    carousel's [activeIndex] of that moment. From then on no event of the
    lightbox, and no sequence of them, changes [activeIndex], and the first
    next or previous step in the lightbox after it was opened, over more than
    one image and from an in-range index, leaves the two indices different.
    The lightbox index still follows the carousel: whenever a carousel
    control changes [activeIndex] while the lightbox is open, [currentIndex]
    becomes the new [activeIndex]. *)
Theorem lightbox_seeded_one_way (total : Z) (s : ContentBlock.State) :
  (total <> 0 -> ContentBlock.lightboxOpen s = false ->
   let s' := ContentBlock.step total ContentBlock.ClickImage s in
   ContentBlock.lightboxOpen s' = true /\
   shown s' = Some (ContentBlock.activeIndex s) /\
   ContentBlock.activeIndex s' = ContentBlock.activeIndex s) /\
  (forall evs,
   ContentBlock.activeIndex
     (ContentBlock.run total (ContentBlock.Lightbox <$> evs) s)
   = ContentBlock.activeIndex s) /\
  (1 < total -> 0 <= ContentBlock.activeIndex s < total ->
   ContentBlock.lightboxOpen s = false ->
   let s' := ContentBlock.step total ContentBlock.ClickImage s in
   forall ev,
     ev = ImageLightbox.ClickNext \/ ev = ImageLightbox.ClickPrevious ->
     let s'' := ContentBlock.step total (ContentBlock.Lightbox ev) s' in
     exists c, shown s'' = Some c /\ c <> ContentBlock.activeIndex s'') /\
  (forall ev l,
   carousel_navigation ev ->
   ContentBlock.lightbox s = Some l ->
   let s' := ContentBlock.step total ev s in
   ContentBlock.activeIndex s' <> ContentBlock.activeIndex s ->
   shown s' = Some (ContentBlock.activeIndex s')).
Proof.
  split; [|split; [|split]].
  - intros Ht Hclosed s'. subst s'. simpl.
    destruct (Z.eqb_spec total 0) as [|_]; [done|].
    unfold ContentBlock.handleImageClick. rewrite Hclosed. done.
  - intros evs. apply lightbox_events_keep_activeIndex.
  - intros Ht Ha Hclosed s' ev Hev s''. subst s'' s'.
    cbn [ContentBlock.step].
    destruct (Z.eqb_spec total 0) as [|_]; [lia|].
    unfold ContentBlock.handleImageClick. rewrite Hclosed.
    cbn [ContentBlock.lightbox ContentBlock.lightboxOpen ContentBlock.activeIndex].
    assert ((total >? 1) = true) as Hgt by (apply Z.gtb_lt; lia).
    destruct Hev as [-> | ->]; simpl; rewrite Hgt; simpl.
    + eexists; split; [reflexivity|]. cbn.
      destruct (Z.ltb_spec (ContentBlock.activeIndex s) (total - 1)); lia.
    + eexists; split; [reflexivity|]. cbn.
      destruct (Z.gtb_spec (ContentBlock.activeIndex s) 0); lia.
  - intros ev l Hnav Hl s' Hchanged. subst s'.
    destruct ev as [| |index| |ev]; try done; simpl in *.
    + destruct (total >? 1); [|done].
      unfold ContentBlock.handlePrevious in *.
      erewrite setActiveIndex_reseeds; [done|exact Hl|exact Hchanged].
    + destruct (total >? 1); [|done].
      unfold ContentBlock.handleNext in *.
      erewrite setActiveIndex_reseeds; [done|exact Hl|exact Hchanged].
    + destruct ((total >? 1) && (Z.of_nat index <? total)); [|done].
      erewrite setActiveIndex_reseeds; [done|exact Hl|exact Hchanged].
Qed.

(** Three images: the lightbox is opened on the first one and steps to the
    second; later the carousel's arrow is used while the lightbox is open. *)
Lemma lightbox_seeded_one_way_witness :
  let s0 := ContentBlock.initial in
  let s1 := ContentBlock.step 3 ContentBlock.ClickImage s0 in
  shown s1 = Some 0 /\
  (exists c, shown (ContentBlock.step 3 (ContentBlock.Lightbox ImageLightbox.ClickNext) s1)
             = Some c /\ c <> 0) /\
  shown (ContentBlock.step 3 ContentBlock.ClickNext s1) = Some 1.
Proof.
  intros s0 s1.
  destruct (lightbox_seeded_one_way 3 s0) as (Hopen & _ & Hdiff & _).
  destruct (lightbox_seeded_one_way 3 s1) as (_ & _ & _ & Hseed).
  split; [|split].
  - apply Hopen; [intros H; discriminate H | reflexivity].
  - apply Hdiff; [lia | simpl; lia | reflexivity | left; reflexivity].
  - apply (Hseed ContentBlock.ClickNext (ImageLightbox.mkState 0 true));
      [exact I | reflexivity | simpl; intros H; discriminate H].
Defined.

(** C7 as stated fails: the indices are not independent. With three
    images, the lightbox is opened on image 0 and moved to image 2; the
    carousel's next arrow then sets [activeIndex] to 1, and the lightbox
    index goes from 2 to 1 with it. *)
Lemma lightbox_seeded_one_way_counterexample :
  let s :=
    ContentBlock.run 3
      [ContentBlock.ClickImage;
       ContentBlock.Lightbox ImageLightbox.ClickNext;
       ContentBlock.Lightbox ImageLightbox.ClickNext]
      ContentBlock.initial in
  ContentBlock.activeIndex s = 0 /\ shown s = Some 2 /\
  ContentBlock.activeIndex (ContentBlock.step 3 ContentBlock.ClickNext s) = 1 /\
  shown (ContentBlock.step 3 ContentBlock.ClickNext s) = Some 1 /\
  shown (ContentBlock.step 3 ContentBlock.ClickNext s) <> shown s.
Proof. simpl. repeat split; [reflexivity .. | discriminate]. Qed.

(** * The lightbox keyboard *)

(** C8. While the lightbox is open, Escape calls [onClose] and the block
    closes and unmounts it. Over more than one image ArrowRight and ArrowLeft
    move an in-range index to [(currentIndex + 1) mod total] and
    [(currentIndex - 1 + total) mod total] and do not close; over a single
    image (or none) they leave the state as it is. Opening on index 2 of five
    images and pressing ArrowRight three times ends on index 0, through 3
    and 4. *)
Theorem lightbox_keyboard (total : Z) (l : ImageLightbox.State) :
  (snd (ImageLightbox.handle total true (ImageLightbox.KeyDown "Escape") l) = true /\
   forall a,
     ContentBlock.step total (ContentBlock.Lightbox (ImageLightbox.KeyDown "Escape"))
       (ContentBlock.mkState a true (Some l))
     = ContentBlock.mkState a false None) /\
  (1 < total -> 0 <= ImageLightbox.currentIndex l < total ->
   ImageLightbox.handle total true (ImageLightbox.KeyDown "ArrowRight") l
   = (ImageLightbox.mkState ((ImageLightbox.currentIndex l + 1) mod total)
        (ImageLightbox.mounted l), false) /\
   ImageLightbox.handle total true (ImageLightbox.KeyDown "ArrowLeft") l
   = (ImageLightbox.mkState ((ImageLightbox.currentIndex l - 1 + total) mod total)
        (ImageLightbox.mounted l), false)) /\
  (total <= 1 ->
   ImageLightbox.handle total true (ImageLightbox.KeyDown "ArrowRight") l = (l, false) /\
   ImageLightbox.handle total true (ImageLightbox.KeyDown "ArrowLeft") l = (l, false)) /\
  (let opened := ContentBlock.step 5 ContentBlock.ClickImage
                   (ContentBlock.mkState 2 false None) in
   let right := ContentBlock.Lightbox (ImageLightbox.KeyDown "ArrowRight") in
   shown opened = Some 2 /\
   shown (ContentBlock.run 5 [right] opened) = Some 3 /\
   shown (ContentBlock.run 5 [right; right] opened) = Some 4 /\
   shown (ContentBlock.run 5 [right; right; right] opened) = Some 0).
Proof.
  split; [|split; [|split]].
  - split; [reflexivity|]. intros a. simpl.
    destruct (total >? 1); reflexivity.
  - intros Ht Hc.
    assert ((total >? 1) = true) as Hgt by (apply Z.gtb_lt; lia).
    simpl. rewrite Hgt. unfold ImageLightbox.handleKeyNav. simpl.
    unfold ImageLightbox.handleNext, ImageLightbox.handlePrevious,
      ImageLightbox.setCurrentIndex. simpl.
    rewrite next_index_mod, previous_index_mod by done. done.
  - intros Ht.
    assert ((total >? 1) = false) as Hgt
      by (rewrite Z.gtb_ltb; apply Z.ltb_ge; lia).
    simpl. rewrite Hgt. done.
  - simpl. repeat split; reflexivity.
Qed.

(** Five images, the lightbox on the last one; and a single image. *)
Lemma lightbox_keyboard_witness :
  ImageLightbox.handle 5 true (ImageLightbox.KeyDown "ArrowRight")
    (ImageLightbox.mkState 4 true)
  = (ImageLightbox.mkState 0 true, false) /\
  ImageLightbox.handle 5 true (ImageLightbox.KeyDown "ArrowLeft")
    (ImageLightbox.mkState 0 true)
  = (ImageLightbox.mkState 4 true, false) /\
  ImageLightbox.handle 1 true (ImageLightbox.KeyDown "ArrowRight")
    (ImageLightbox.mkState 0 true)
  = (ImageLightbox.mkState 0 true, false).
Proof.
  destruct (lightbox_keyboard 5 (ImageLightbox.mkState 4 true)) as (_ & H4 & _).
  destruct (lightbox_keyboard 5 (ImageLightbox.mkState 0 true)) as (_ & H0 & _).
  destruct (lightbox_keyboard 1 (ImageLightbox.mkState 0 true)) as (_ & _ & H1 & _).
  split; [|split].
  - apply H4; simpl; lia.
  - apply H0; simpl; lia.
  - apply H1. lia.
Defined.

(** * Upload validation, client and server *)

Lemma includes_elem_of (arr : list string) (x : string) :
  Js.includes arr x = true <-> x ∈ arr.
Proof.
  induction arr as [|y arr IH]; simpl.
  - split; [done|]. intros H. by apply elem_of_nil in H.
  - rewrite orb_true_iff, IH, elem_of_cons, String.eqb_eq.
    split; intros [H|H]; auto.
Qed.

Lemma check_file_accepts file :
  check_file file = None <->
  File.type file ∈ validTypes /\ File.size file <= maxSize.
Proof.
  unfold check_file. rewrite <- includes_elem_of.
  destruct (Js.includes validTypes (File.type file)); simpl;
    [|split; [done | by intros [H _]]].
  destruct (Z.gtb_spec (File.size file) maxSize); split.
  - done.
  - intros [_ H']. lia.
  - intros _. split; [done|lia].
  - done.
Qed.

Lemma validate_accepts file :
  UploadRoute.validate file = None <->
  File.type file ∈ UploadRoute.validTypes /\ File.size file <= UploadRoute.maxSize.
Proof.
  unfold UploadRoute.validate. rewrite <- includes_elem_of.
  destruct (Js.includes UploadRoute.validTypes (File.type file)); simpl;
    [|split; [done | by intros [H _]]].
  destruct (Z.gtb_spec (File.size file) UploadRoute.maxSize); split.
  - done.
  - intros [_ H']. lia.
  - intros _. split; [done|lia].
  - done.
Qed.

(** C10. The editor's pre-upload check and the upload route's validation
    pass the same files: each passes a file exactly when its type is one of
    image/jpeg, image/jpg, image/png, image/gif, image/webp and its size is
    at most 5*1024*1024 bytes, so one passes if and only if the other does. *)
Theorem client_server_validation_agree (file : File.t) :
  (check_file file = None <->
   File.type file ∈ ["image/jpeg"; "image/jpg"; "image/png"; "image/gif"; "image/webp"]
   /\ File.size file <= 5 * 1024 * 1024) /\
  (UploadRoute.validate file = None <->
   File.type file ∈ ["image/jpeg"; "image/jpg"; "image/png"; "image/gif"; "image/webp"]
   /\ File.size file <= 5 * 1024 * 1024) /\
  (check_file file = None <-> UploadRoute.validate file = None).
Proof.
  split; [apply check_file_accepts|]. split; [apply validate_accepts|].
  rewrite check_file_accepts, validate_accepts. done.
Qed.

(** A PNG of exactly 5 MiB passes both checks; one byte more fails both. *)
Lemma client_server_validation_agree_witness :
  check_file (File.mk "a.png" "image/png" 5242880) = None /\
  UploadRoute.validate (File.mk "a.png" "image/png" 5242880) = None /\
  check_file (File.mk "b.png" "image/png" 5242881) <> None /\
  UploadRoute.validate (File.mk "b.png" "image/png" 5242881) <> None.
Proof.
  destruct (client_server_validation_agree (File.mk "a.png" "image/png" 5242880))
    as (Hc & Hs & _).
  destruct (client_server_validation_agree (File.mk "b.png" "image/png" 5242881))
    as (Hc' & Hs' & _).
  split; [|split; [|split]].
  - apply Hc. simpl. split; [|lia]. apply includes_elem_of. reflexivity.
  - apply Hs. simpl. split; [|lia]. apply includes_elem_of. reflexivity.
  - intros H. apply Hc' in H. simpl in H. lia.
  - intros H. apply Hs' in H. simpl in H. lia.
Defined.

(** * The profile GET endpoint *)

Section ProfileGET.

Context {Profile Db : Type}.
Variable defaultProfile : Profile.
Variable connect : Db -> bool.
Variable create_table : Db -> Db * option unit.
Variable select_latest : Db -> Db * option (list Profile).
Variable insert : Profile -> Db -> Db * option unit.

Abbreviation GET :=
  (ProfileRoute.GET Profile defaultProfile Db connect create_table select_latest insert).
Abbreviation ok := (ProfileRoute.json Profile 200).

(** C9. Whatever the backend does, [GET] answers with a JSON document and
    status 200. On first access (the table is there or gets created, and holds
    no row) it inserts the default document and returns it. If connecting
    fails or any of the queries it runs throws, it returns the default
    document; it returns anything else only when every step succeeded and a
    stored document was found, and then it returns that document. *)
Theorem profile_GET_falls_back (db : Db) :
  (exists body, snd (GET db) = ok body) /\
  (forall db1 db2 db3,
     connect db = true ->
     create_table db = (db1, Some tt) ->
     select_latest db1 = (db2, Some []) ->
     insert defaultProfile db2 = (db3, Some tt) ->
     GET db = (db3, ok defaultProfile)) /\
  (connect db = false -> GET db = (db, ok defaultProfile)) /\
  (forall db1, connect db = true -> create_table db = (db1, None) ->
     GET db = (db1, ok defaultProfile)) /\
  (forall db1 u db2, connect db = true -> create_table db = (db1, Some u) ->
     select_latest db1 = (db2, None) ->
     GET db = (db2, ok defaultProfile)) /\
  (forall db1 u db2 db3, connect db = true -> create_table db = (db1, Some u) ->
     select_latest db1 = (db2, Some []) ->
     insert defaultProfile db2 = (db3, None) ->
     GET db = (db3, ok defaultProfile)) /\
  (snd (GET db) <> ok defaultProfile ->
   exists db1 u db2 row rest,
     connect db = true /\ create_table db = (db1, Some u) /\
     select_latest db1 = (db2, Some (row :: rest)) /\
     GET db = (db2, ok row)).
Proof.
  unfold ProfileRoute.GET.
  repeat split.
  - destruct (connect db); simpl; [|eauto].
    destruct (create_table db) as [db1 [u|]]; [|eauto].
    destruct (select_latest db1) as [db2 [[|row rest]|]]; [|eauto..].
    destruct (insert defaultProfile db2) as [db3 [v|]]; eauto.
  - intros db1 db2 db3 -> -> -> ->. done.
  - intros ->. done.
  - intros db1 -> ->. done.
  - intros db1 u db2 -> -> ->. done.
  - intros db1 u db2 db3 -> -> -> ->. done.
  - destruct (connect db); simpl; [|done].
    destruct (create_table db) as [db1 [u|]]; [|done].
    destruct (select_latest db1) as [db2 [[|row rest]|]] eqn:Hsel; [|intros _|done].
    + destruct (insert defaultProfile db2) as [db3 [v|]]; done.
    + exists db1, u, db2, row, rest. done.
Qed.

End ProfileGET.

(** First access on an empty database, and a database that is down. *)
Lemma profile_GET_falls_back_witness :
  MemDb.GET "default" (MemDb.mk [] false)
  = (MemDb.mk ["default"] false, ProfileRoute.json string 200 "default") /\
  MemDb.GET "default" (MemDb.mk ["stored"] true)
  = (MemDb.mk ["stored"] true, ProfileRoute.json string 200 "default").
Proof.
  split.
  - apply (profile_GET_falls_back "default" MemDb.connect MemDb.create_table
             MemDb.select_latest MemDb.insert (MemDb.mk [] false)
             : _ /\ _) with (db1 := MemDb.mk [] false) (db2 := MemDb.mk [] false);
      reflexivity.
  - destruct (profile_GET_falls_back "default" MemDb.connect MemDb.create_table
                MemDb.select_latest MemDb.insert (MemDb.mk ["stored"] true))
      as (_ & _ & _ & Hcreate & _).
    apply Hcreate; reflexivity.
Defined.

(** * The upload batch *)

Lemma validate_all_passes files :
  validate_all files = None <-> Forall (fun f => check_file f = None) files.
Proof.
  induction files as [|f files IH]; simpl.
  - split; [constructor | done].
  - rewrite Forall_cons. destruct (check_file f) as [msg|].
    + split; [done | by intros [H _]].
    + rewrite IH. split; [done | by intros [_ H]].
Qed.

Lemma validate_all_fails files :
  (exists f, f ∈ files /\ check_file f <> None) ->
  exists msg, validate_all files = Some msg.
Proof.
  intros (f & Hin & Hf).
  destruct (validate_all files) as [msg|] eqn:E; [eauto|].
  apply validate_all_passes in E. rewrite Forall_forall in E.
  by specialize (E f Hin).
Qed.

Section UploadBatch.

Variable Json : Type.
Variable JSON_parse : string -> option Json.
Variable get_error : Json -> string.
Variable get_imageUrl : Json -> option string.
Variable fetch : nat -> File.t -> string -> FetchOutcome.

Abbreviation upload_each :=
  (ContentBlockEditor.upload_each Json JSON_parse get_error get_imageUrl fetch).
Abbreviation handleFileUpload :=
  (ContentBlockEditor.handleFileUpload Json JSON_parse get_error get_imageUrl fetch).
Abbreviation outcomes :=
  (request_outcomes Json JSON_parse get_error get_imageUrl fetch).

(** The loop, when nothing throws: every file is requested, in order, each
    failure is reported, and the references of the successes are collected. *)
Lemma upload_each_tolerant token files : forall i acc,
  Forall (fun o => o <> Thrown) (outcomes token i files) ->
  exists eff,
    upload_each token i files acc
    = (eff, Some (acc ++ uploaded (outcomes token i files))) /\
    requests eff = files /\
    alerts eff = failure_alerts files (outcomes token i files).
Proof.
  induction files as [|file rest IH]; intros i acc Hall.
  - exists []. simpl. by rewrite app_nil_r.
  - cbn [request_outcomes] in Hall.
    apply Forall_cons in Hall as [Hhead Hrest].
    cbn [request_outcomes uploaded failure_alerts].
    cbn [ContentBlockEditor.upload_each].
    unfold request_outcome in *.
    destruct (fetch i file token) as [|[] text]; [done| |].
    + destruct (JSON_parse text) as [data|]; simpl in Hhead |- *; [|done].
      destruct (get_imageUrl data) as [url|]; [|done].
      destruct (IH (S i) (acc ++ [url]) Hrest) as (eff & Heq & Hreq & Hal).
      simpl. rewrite Heq. eexists; split; [|split].
      * rewrite <- app_assoc. reflexivity.
      * simpl. by rewrite Hreq.
      * simpl. exact Hal.
    + destruct (IH (S i) acc Hrest) as (eff & Heq & Hreq & Hal).
      simpl. destruct (Js.str_includes text "{").
      * destruct (JSON_parse text) as [j|]; [|done]. simpl. rewrite Heq.
        eexists; split; [reflexivity|]. simpl. by rewrite Hreq, Hal.
      * simpl. rewrite Heq.
        eexists; split; [reflexivity|]. simpl. by rewrite Hreq, Hal.
Qed.


End UploadBatch.



(** * More of the editor *)

(** An excluded index outside the array leaves the array as it is. *)
Lemma filter_index_from_outside {A} (l : list A) (t k : Z) :
  t < k \/ k + Js.len l <= t ->
  Js.filter_index_from (fun j => Js.neq j t) k l = l.
Proof.
  revert k. induction l as [|x l IH]; intros k Ht; simpl; [done|].
  unfold Js.len in *. simpl length in Ht.
  unfold Js.neq at 1. destruct (Z.eqb_spec k t) as [->|_]; [lia|].
  simpl. f_equal. apply IH. lia.
Qed.

Lemma handleRemoveImage_previewIndex i s :
  previewIndex (handleRemoveImage i s)
  = if previewIndex s >=? Js.len (images s) - 1
    then Z.max 0 (Js.len (images s) - 2) else previewIndex s.
Proof.
  unfold handleRemoveImage.
  by destruct (previewIndex s >=? Js.len (images s) - 1).
Qed.

Ltac nothing_appended :=
  exists (@nil string); simpl; rewrite !app_nil_r; done.

(** What an upload can do to the state, whatever the cookie, the files and
    the network: append references, append as many empty links, and switch
    the upload flag. *)
Lemma handleFileUpload_shape Json parse get_error get_imageUrl fetch cookie files s :
  let r := ContentBlockEditor.handleFileUpload Json parse get_error get_imageUrl
             fetch cookie files s in
  exists urls,
    images (fst r) = images s ++ urls /\
    imageLinks (fst r) = imageLinks s ++ replicate (length urls) "" /\
    form_cells (fst r) = form_cells s /\
    previewIndex (fst r) = previewIndex s.
Proof.
  intros r. subst r. unfold ContentBlockEditor.handleFileUpload.
  destruct files as [[|f fs]|]; [nothing_appended| |nothing_appended].
  destruct (validate_all (f :: fs)); [nothing_appended|].
  destruct cookie as [[|c token]|]; [nothing_appended| |nothing_appended].
  destruct (ContentBlockEditor.upload_each _ _ _ _ _ _ _ _ _) as [eff [urls|]];
    [|nothing_appended].
  exists urls. simpl. unfold Js.array_fill, Js.len. by rewrite Nat2Z.id.
Qed.

(** X2. The preview index keeps pointing at an image (or is 0 when there is
    none) under removing an image at a valid index, the two preview arrows
    (which are rendered only when there are images), the "Add Photos" toggle,
    an upload of any batch with any outcome, loading a block and closing. *)
Theorem preview_index_stays_in_range (s : State) :
  preview_in_range s ->
  (forall i : nat, (i < length (images s))%nat ->
     preview_in_range (handleRemoveImage (Z.of_nat i) s)) /\
  (images s <> [] -> preview_in_range (previewPrevious s)) /\
  preview_in_range (previewNext s) /\
  (forall checked, preview_in_range (toggleHasImages checked s)) /\
  (forall Json parse get_error get_imageUrl fetch cookie files,
     preview_in_range
       (fst (ContentBlockEditor.handleFileUpload Json parse get_error get_imageUrl
               fetch cookie files s))) /\
  (forall initialData, preview_in_range (load initialData s)) /\
  (forall initialData, preview_in_range (fst (handleClose initialData s))).
Proof.
  intros Hs. repeat split.
  - intros i Hi. unfold preview_in_range.
    rewrite handleRemoveImage_images, handleRemoveImage_previewIndex.
    assert (Js.len (delete i (images s)) = Js.len (images s) - 1) as Hlen.
    { unfold Js.len. rewrite length_delete by (by apply lookup_lt_is_Some). lia. }
    rewrite Hlen.
    assert (0 <= previewIndex s < Js.len (images s)) as Hp.
    { destruct Hs as [[Hnil _]|Hp]; [|done]. rewrite Hnil in Hi. simpl in Hi. lia. }
    destruct (Z.geb_spec (previewIndex s) (Js.len (images s) - 1)).
    + destruct (decide (Js.len (images s) = 1)) as [H1|H1].
      * left. split; [|lia]. apply length_zero_iff_nil.
        unfold Js.len in *. rewrite length_delete by (by apply lookup_lt_is_Some). lia.
      * right. unfold Js.len in *. lia.
    + right. lia.
  - intros Hne. right. unfold previewPrevious. simpl.
    destruct Hs as [[Hnil _]|Hp]; [done|].
    destruct (Z.gtb_spec (previewIndex s) 0); lia.
  - unfold previewNext, preview_in_range. simpl.
    destruct Hs as [[Hnil Hp]|Hp].
    + left. split; [done|]. rewrite Hp, Hnil. reflexivity.
    + right. destruct (Z.ltb_spec (previewIndex s) (Js.len (images s) - 1)); lia.
  - intros checked. exact Hs.
  - intros Json parse get_error get_imageUrl fetch cookie files.
    destruct (handleFileUpload_shape Json parse get_error get_imageUrl fetch
                cookie files s) as (urls & Himg & _ & _ & Hp).
    unfold preview_in_range. rewrite Himg, Hp.
    destruct Hs as [[Hnil Hp0]|Hr].
    + rewrite Hnil, Hp0. simpl. destruct urls as [|u urls]; [by left|].
      right. unfold Js.len. simpl. lia.
    + right. unfold Js.len in *. rewrite length_app. lia.
  - intros [d|]; unfold preview_in_range; simpl.
    + destruct (default [] (init_images d)) as [|x l]; [by left|].
      right. unfold Js.len. simpl. lia.
    + by left.
  - intros [d|]; simpl; [exact Hs | by left].
Qed.

(** Three images with the last one previewed: the last one is removed. *)
Lemma preview_index_stays_in_range_witness :
  let s := mkState title "" false "" true ["A"; "B"; "C"] [""; ""; ""] false 2 in
  preview_in_range (handleRemoveImage 2 s) /\
  preview_in_range (previewPrevious s) /\
  preview_in_range (previewNext s).
Proof.
  intros s.
  destruct (preview_index_stays_in_range s) as (Hrm & Hprev & Hnext & _).
  - right. unfold s, Js.len. simpl. lia.
  - split; [|split].
    + apply (Hrm 2%nat). unfold s. simpl. lia.
    + apply Hprev. intros H. discriminate H.
    + exact Hnext.
Defined.



Section UploadThrows.

Variable Json : Type.
Variable JSON_parse : string -> option Json.
Variable get_error : Json -> string.
Variable get_imageUrl : Json -> option string.
Variable fetch : nat -> File.t -> string -> FetchOutcome.

Abbreviation upload_each' :=
  (ContentBlockEditor.upload_each Json JSON_parse get_error get_imageUrl fetch).
Abbreviation handleFileUpload' :=
  (ContentBlockEditor.handleFileUpload Json JSON_parse get_error get_imageUrl fetch).
Abbreviation outcomes' :=
  (request_outcomes Json JSON_parse get_error get_imageUrl fetch).

(** The loop up to the first request that throws. *)
Lemma upload_each_throws token files : forall i acc pre post,
  outcomes' token i files = pre ++ Thrown :: post ->
  Forall (fun o => o <> Thrown) pre ->
  exists eff,
    upload_each' token i files acc = (eff, None) /\
    requests eff = take (S (length pre)) files /\
    alerts eff = failure_alerts files pre.
Proof.
  induction files as [|file rest IH]; intros i acc pre post Hout Hpre.
  { simpl in Hout. by destruct pre. }
  cbn [request_outcomes] in Hout.
  cbn [ContentBlockEditor.upload_each].
  destruct pre as [|o pre].
  - simpl in Hout. injection Hout as Ho _.
    unfold request_outcome in Ho.
    destruct (fetch i file token) as [|[] text].
    + exists [fetch_upload file token]. done.
    + destruct (JSON_parse text) as [data|]; simpl in Ho |- *.
      * destruct (get_imageUrl data); [done|].
        exists [fetch_upload file token]. done.
      * exists [fetch_upload file token]. done.
    + simpl. destruct (Js.str_includes text "{"); [|done].
      destruct (JSON_parse text); [done|].
      exists [fetch_upload file token]. done.
  - simpl in Hout. injection Hout as Ho Hrest.
    apply Forall_cons in Hpre as [Hhead Hpre].
    unfold request_outcome in Ho.
    destruct (fetch i file token) as [|[] text]; [by subst o| |].
    + destruct (JSON_parse text) as [data|]; simpl in Ho |- *; [|by subst o].
      destruct (get_imageUrl data) as [url|]; [|by subst o].
      destruct (IH (S i) (acc ++ [url]) pre post Hrest Hpre) as (eff & Heq & Hreq & Hal).
      simpl. rewrite Heq. eexists; split; [reflexivity|].
      subst o. simpl. by rewrite Hreq, Hal.
    + destruct (IH (S i) acc pre post Hrest Hpre) as (eff & Heq & Hreq & Hal).
      simpl. destruct (Js.str_includes text "{").
      * destruct (JSON_parse text) as [j|]; [|by subst o]. simpl. rewrite Heq.
        eexists; split; [reflexivity|]. subst o. simpl. by rewrite Hreq, Hal.
      * simpl. rewrite Heq.
        eexists; split; [reflexivity|]. subst o. simpl. by rewrite Hreq, Hal.
Qed.


(** Every request is for a file of the batch, in the batch's order, each
    file at most once. *)
Lemma upload_each_requests_prefix token files : forall i acc,
  requests (fst (upload_each' token i files acc)) `prefix_of` files.
Proof.
  induction files as [|file rest IH]; intros i acc; [done|].
  cbn [ContentBlockEditor.upload_each].
  assert (forall m : Try (list string),
            requests (fst m) `prefix_of` rest ->
            requests (fst (@mbind Try ContentBlockEditor.Try_bind _ _ (fun _ => m)
                                  (perform (fetch_upload file token))))
              `prefix_of` file :: rest) as Hstep.
  { intros [e [x|]] Hm; simpl in *; by apply prefix_cons. }
  destruct (fetch i file token) as [|[] text].
  - simpl. apply prefix_cons, prefix_nil.
  - apply Hstep.
    destruct (JSON_parse text) as [data|]; simpl; [|apply prefix_nil].
    destruct (get_imageUrl data) as [url|]; simpl; [|apply prefix_nil].
    specialize (IH (S i) (acc ++ [url])).
    by destruct (ContentBlockEditor.upload_each _ _ _ _ _ _ _ _ _) as [e [x|]].
  - apply Hstep. specialize (IH (S i) acc).
    destruct (Js.str_includes text "{"); simpl.
    + destruct (JSON_parse text) as [j|]; simpl; [|apply prefix_nil].
      by destruct (ContentBlockEditor.upload_each _ _ _ _ _ _ _ _ _) as [e [x|]].
    + by destruct (ContentBlockEditor.upload_each _ _ _ _ _ _ _ _ _) as [e [x|]].
Qed.

(** X5. Under every cookie, batch and network behaviour the requests the
    handler sends are an initial part of the batch: it never sends a file
    that was not selected, never sends one twice and never out of order. *)
Theorem handleFileUpload_requests_prefix
        (cookie : option string) (files : list File.t) (s : State) :
  requests (snd (handleFileUpload' cookie (Some files) s)) `prefix_of` files.
Proof.
  unfold ContentBlockEditor.handleFileUpload.
  destruct files as [|f fs]; [done|].
  destruct (validate_all (f :: fs)); [apply prefix_nil|].
  destruct cookie as [[|c token]|]; [apply prefix_nil| |apply prefix_nil].
  pose proof (upload_each_requests_prefix (String c token) (f :: fs) 0 []) as Hp.
  destruct (ContentBlockEditor.upload_each _ _ _ _ _ _ _ _ _) as [eff [u|]];
    cbn [fst snd] in *; [done|].
  assert (forall e, requests (e ++ [console_error; alert "Failed to upload. Check console."])
                    = requests e) as Hr.
  { intros e. induction e as [|[] e IHe]; simpl; by rewrite ?IHe. }
  by rewrite Hr.
Qed.

End UploadThrows.


(** X6. A save that passes the guard emits exactly one block, then closes
    the modal. When a new block was being created the editor is cleared to
    its defaults (the upload flag apart), so the next block starts empty;
    when an existing block was being edited the editor state is kept. *)
Theorem handleSave_then_closes (initialData : option InitialData) (s : State) :
  blank (content s) = false \/ images s <> [] ->
  (exists t c d i l, snd (handleSave initialData s) = [onSave t c d i l; onClose]) /\
  (initialData = None ->
   fst (handleSave initialData s)
   = mkState title "" false "" false [] [] (isUploading s) 0) /\
  (forall d, initialData = Some d -> fst (handleSave initialData s) = s).
Proof.
  intros H. rewrite handleSave_accepts by done. simpl.
  split; [eauto 10|]. split.
  - by intros ->.
  - by intros d ->.
Qed.

Lemma handleSave_then_closes_witness :
  fst (handleSave None (mkState context "Past Projects" true "2024" true ["A"] [""] false 0))
  = initial.
Proof.
  destruct (handleSave_then_closes None
              (mkState context "Past Projects" true "2024" true ["A"] [""] false 0))
    as (_ & Hnew & _).
  - left. reflexivity.
  - apply Hnew. reflexivity.
Defined.

(** X7. A block saved from a state whose [images] and [imageLinks] have the
    same length carries an images field exactly when it carries an imageLinks
    field, and then the two have the same length. *)
Theorem handleSave_emits_aligned (initialData : option InitialData) (s : State) :
  length (images s) = length (imageLinks s) ->
  forall b, b ∈ saved_blocks (snd (handleSave initialData s)) ->
  match block_images b, block_imageLinks b with
  | Some imgs, Some links => length imgs = length links /\ imgs <> []
  | None, None => True
  | _, _ => False
  end.
Proof.
  intros Hal b Hb.
  destruct (blank (content s)) eqn:Hblank; destruct (images s) as [|x l] eqn:Hi.
  - rewrite handleSave_rejects in Hb by done. by apply elem_of_nil in Hb.
  - rewrite handleSave_accepts in Hb by (right; by rewrite Hi).
    apply list_elem_of_singleton in Hb. subst b. simpl.
    rewrite Hi in *. destruct (imageLinks s) as [|y k]; [done|].
    destruct (hasImages s); simpl; done.
  - rewrite handleSave_accepts in Hb by (by left).
    apply list_elem_of_singleton in Hb. subst b. simpl.
    rewrite Hi in *. destruct (imageLinks s) as [|y k]; [|done].
    by destruct (hasImages s).
  - rewrite handleSave_accepts in Hb by (by left).
    apply list_elem_of_singleton in Hb. subst b. simpl.
    rewrite Hi in *. destruct (imageLinks s) as [|y k]; [done|].
    destruct (hasImages s); simpl; done.
Qed.

Lemma handleSave_emits_aligned_witness :
  let b := mkBlock title "" None (Some ["A"; "B"]) (Some [""; "x"]) in
  match block_images b, block_imageLinks b with
  | Some imgs, Some links => length imgs = length links /\ imgs <> []
  | None, None => True
  | _, _ => False
  end.
Proof.
  intros b.
  apply (handleSave_emits_aligned None
           (mkState title "" false "" true ["A"; "B"] [""; "x"] false 0)).
  - reflexivity.
  - apply list_elem_of_singleton. reflexivity.
Defined.

(** X8. Opening an existing block and saving it without a change emits the
    block that was opened and keeps the editor state, provided the block is
    in the form the editor itself emits: it has text that is not blank or at
    least one image, its duration (if any) is not blank, its images field (if
    any) is not empty, and its imageLinks field (if any) is not empty and
    comes with images. *)
Theorem load_save_round_trip (d : InitialData) (s : State) :
  blank (init_content d) = false \/ (exists l, init_images d = Some l /\ l <> []) ->
  (forall x, init_duration d = Some x -> blank x = false) ->
  init_images d <> Some [] ->
  (forall l, init_imageLinks d = Some l -> l <> [] /\ init_images d <> None) ->
  let opened := load (Some d) s in
  saved_blocks (snd (handleSave (Some d) opened)) = [block_of d] /\
  fst (handleSave (Some d) opened) = opened.
Proof.
  intros Hcontent Hdur Himg Hlnk opened.
  assert (blank (content opened) = false \/ images opened <> []) as Hacc.
  { destruct Hcontent as [Hc | (l & Hl & Hne)]; [by left|].
    right. subst opened. simpl. by rewrite Hl. }
  rewrite handleSave_accepts by done. split; [|reflexivity].
  cbn [snd saved_blocks]. unfold block_of. subst opened. cbn. f_equal. f_equal.
  - destruct (init_duration d) as [x|]; [|done].
    specialize (Hdur x eq_refl).
    assert (Js.truthy x = true) as Ht by (by destruct x).
    rewrite Ht. cbn. fold (Js.trim x). by rewrite truthy_trim, Hdur.
  - destruct (init_images d) as [[|y l]|]; done.
  - destruct (init_imageLinks d) as [k|]; cbn.
    + destruct (Hlnk k eq_refl) as [Hk Hsome].
      destruct (init_images d) as [[|y l]|]; [done| |done].
      cbn. by destruct k.
    + by rewrite andb_false_r.
Qed.

Lemma load_save_round_trip_witness :
  let d := Build_InitialData context "Past Projects" (Some "2023 - 2024")
             (Some ["A"; "B"]) (Some [""; "x"]) in
  saved_blocks (snd (handleSave (Some d) (load (Some d) initial))) = [block_of d].
Proof.
  intros d.
  apply (load_save_round_trip d initial).
  - left. reflexivity.
  - intros x Hx. injection Hx as <-. reflexivity.
  - intros H. discriminate H.
  - intros l Hl. injection Hl as <-. split; intros H; discriminate H.
Defined.



(** * More of the carousel and the lightbox *)

Lemma carousel_handlePrevious_index total s :
  ContentBlock.activeIndex (ContentBlock.handlePrevious total s)
  = (if ContentBlock.activeIndex s >? 0
     then ContentBlock.activeIndex s - 1 else total - 1).
Proof. reflexivity. Qed.

Lemma previous_after_next (total a : Z) :
  0 <= a < total ->
  (let b := if a <? total - 1 then a + 1 else 0 in
   if b >? 0 then b - 1 else total - 1) = a.
Proof.
  intros Ha. simpl. destruct (Z.ltb_spec a (total - 1)).
  - destruct (Z.gtb_spec (a + 1) 0); lia.
  - simpl. lia.
Qed.

Lemma next_after_previous (total a : Z) :
  0 <= a < total ->
  (let b := if a >? 0 then a - 1 else total - 1 in
   if b <? total - 1 then b + 1 else 0) = a.
Proof.
  intros Ha. simpl. destruct (Z.gtb_spec a 0).
  - destruct (Z.ltb_spec (a - 1) (total - 1)); lia.
  - destruct (Z.ltb_spec (total - 1) (total - 1)); lia.
Qed.

(** X10. On an in-range index [previous()] sets [activeIndex] to
    [(activeIndex - 1 + total) mod total], and it undoes [next()] as [next()]
    undoes it. With the lightbox closed, [next()] then [previous()] gives back
    the very state. *)
Theorem carousel_previous_undoes_next (total : Z) (s : ContentBlock.State) :
  0 <= ContentBlock.activeIndex s < total ->
  ContentBlock.activeIndex (ContentBlock.handlePrevious total s)
  = (ContentBlock.activeIndex s - 1 + total) mod total /\
  ContentBlock.activeIndex
    (ContentBlock.handlePrevious total (ContentBlock.handleNext total s))
  = ContentBlock.activeIndex s /\
  ContentBlock.activeIndex
    (ContentBlock.handleNext total (ContentBlock.handlePrevious total s))
  = ContentBlock.activeIndex s /\
  (ContentBlock.lightbox s = None ->
   ContentBlock.handlePrevious total (ContentBlock.handleNext total s) = s).
Proof.
  intros Ha.
  assert (ContentBlock.activeIndex
            (ContentBlock.handlePrevious total (ContentBlock.handleNext total s))
          = ContentBlock.activeIndex s) as Hpn.
  { rewrite carousel_handlePrevious_index, carousel_handleNext_index.
    by apply previous_after_next. }
  split; [|split; [exact Hpn|split]].
  - rewrite carousel_handlePrevious_index. by apply previous_index_mod.
  - rewrite carousel_handleNext_index, carousel_handlePrevious_index.
    by apply next_after_previous.
  - intros Hl. destruct s as [a o lb]. simpl in *. subst lb.
    unfold ContentBlock.handlePrevious, ContentBlock.handleNext,
      ContentBlock.setActiveIndex in *. simpl in *.
    rewrite Hpn. f_equal.
    repeat match goal with |- context [Z.eqb ?x ?y] => destruct (Z.eqb x y) end;
      reflexivity.
Qed.

Lemma carousel_previous_undoes_next_witness :
  ContentBlock.activeIndex (ContentBlock.handlePrevious 4 ContentBlock.initial) = 3 /\
  ContentBlock.handlePrevious 4 (ContentBlock.handleNext 4 ContentBlock.initial)
  = ContentBlock.initial.
Proof.
  destruct (carousel_previous_undoes_next 4 ContentBlock.initial) as (Hp & _ & _ & Hs).
  - simpl. lia.
  - split; [exact Hp | apply Hs; reflexivity].
Defined.

(** The overlay keeps its index in range and stays mounted. *)
Lemma lightbox_handle_in_range total isOpen ev l :
  ImageLightbox.mounted l = true ->
  0 <= ImageLightbox.currentIndex l < total ->
  ImageLightbox.mounted (fst (ImageLightbox.handle total isOpen ev l)) = true /\
  0 <= ImageLightbox.currentIndex (fst (ImageLightbox.handle total isOpen ev l)) < total.
Proof.
  intros Hm Hc.
  assert (forall l', ImageLightbox.mounted l' = true ->
            0 <= ImageLightbox.currentIndex l' < total ->
            ImageLightbox.mounted (ImageLightbox.handleNext total l') = true /\
            0 <= ImageLightbox.currentIndex (ImageLightbox.handleNext total l') < total)
    as Hnext.
  { intros l' Hm' Hc'. split; [done|]. simpl.
    destruct (Z.ltb_spec (ImageLightbox.currentIndex l') (total - 1)); lia. }
  assert (forall l', ImageLightbox.mounted l' = true ->
            0 <= ImageLightbox.currentIndex l' < total ->
            ImageLightbox.mounted (ImageLightbox.handlePrevious total l') = true /\
            0 <= ImageLightbox.currentIndex (ImageLightbox.handlePrevious total l') < total)
    as Hprev.
  { intros l' Hm' Hc'. split; [done|]. simpl.
    destruct (Z.gtb_spec (ImageLightbox.currentIndex l') 0); lia. }
  destruct ev as [key| | | | | |idx]; simpl; try done.
  - destruct (isOpen && (total >? 1)); [|done].
    unfold ImageLightbox.handleKeyNav.
    destruct (String.eqb key "ArrowLeft"), (String.eqb key "ArrowRight"); auto.
    apply Hnext; by apply Hprev.
  - destruct (isOpen && ImageLightbox.mounted l && (total >? 1)); auto.
  - destruct (isOpen && ImageLightbox.mounted l && (total >? 1)); auto.
  - destruct (isOpen && ImageLightbox.mounted l && (total >? 1)); simpl; [|done].
    destruct (Z.ltb_spec (Z.of_nat idx) total); simpl; [|done].
    split; [done|lia].
Qed.

Lemma block_ok_setActiveIndex total f s :
  block_ok total s ->
  0 <= f (ContentBlock.activeIndex s) < total ->
  block_ok total (ContentBlock.setActiveIndex f s).
Proof.
  intros [Ha Hl] Hf. split; [done|]. simpl.
  destruct (Z.eqb_spec (f (ContentBlock.activeIndex s)) (ContentBlock.activeIndex s));
    [done|].
  destruct (ContentBlock.lightbox s) as [l|]; simpl; [|done].
  destruct Hl as (Ho & Hm & _). done.
Qed.

Lemma block_ok_step total ev s :
  block_ok total s -> block_ok total (ContentBlock.step total ev s).
Proof.
  intros Hs. pose proof Hs as [Ha Hl].
  destruct ev as [| |index| |ev]; simpl.
  - destruct (total >? 1); [|done].
    apply block_ok_setActiveIndex; [done|].
    destruct (Z.gtb_spec (ContentBlock.activeIndex s) 0); lia.
  - destruct (total >? 1); [|done].
    apply block_ok_setActiveIndex; [done|].
    destruct (Z.ltb_spec (ContentBlock.activeIndex s) (total - 1)); lia.
  - destruct (total >? 1); simpl; [|done].
    destruct (Z.ltb_spec (Z.of_nat index) total); [|done].
    apply block_ok_setActiveIndex; [done|lia].
  - destruct (total =? 0); [done|].
    unfold ContentBlock.handleImageClick.
    destruct (ContentBlock.lightboxOpen s); [done|].
    split; simpl; done.
  - destruct (ContentBlock.lightbox s) as [l|] eqn:El; [|done].
    destruct Hl as (Ho & Hm & Hc).
    pose proof (lightbox_handle_in_range total (ContentBlock.lightboxOpen s) ev l Hm Hc)
      as [Hm' Hc'].
    destruct (ImageLightbox.handle total (ContentBlock.lightboxOpen s) ev l)
      as [l' closed]. simpl in *.
    destruct closed; split; simpl; done.
Qed.

Lemma block_ok_run total evs : forall s,
  block_ok total s -> block_ok total (ContentBlock.run total evs s).
Proof.
  unfold ContentBlock.run.
  induction evs as [|ev evs IH]; intros s Hs; simpl; [done|].
  apply IH. by apply block_ok_step.
Qed.

(** X11. Starting from the first render of a block with at least one
    image, after every sequence of clicks and key presses on the carousel and
    the lightbox, [activeIndex] points at an image, the lightbox exists
    exactly while it is open, and its [currentIndex] points at an image too. *)
Theorem block_indices_stay_in_range (total : Z) (evs : list ContentBlock.Event) :
  0 < total ->
  block_ok total (ContentBlock.run total evs ContentBlock.initial).
Proof.
  intros Ht. apply block_ok_run. split; simpl; [lia|done].
Qed.

Lemma block_indices_stay_in_range_witness :
  block_ok 3
    (ContentBlock.run 3
       [ContentBlock.ClickPrevious; ContentBlock.ClickImage;
        ContentBlock.Lightbox ImageLightbox.ClickNext;
        ContentBlock.Lightbox (ImageLightbox.ClickThumbnail 7);
        ContentBlock.ClickDot 9]
       ContentBlock.initial).
Proof.
  apply (block_indices_stay_in_range 3). lia.
Defined.

(** X12. A block without images ignores every event: nothing moves and the
    lightbox never opens. A block with a single image keeps both indices
    at 0. *)
Theorem block_without_choice_never_moves (evs : list ContentBlock.Event) :
  ContentBlock.run 0 evs ContentBlock.initial = ContentBlock.initial /\
  ContentBlock.activeIndex (ContentBlock.run 1 evs ContentBlock.initial) = 0 /\
  (shown (ContentBlock.run 1 evs ContentBlock.initial) = None \/
   shown (ContentBlock.run 1 evs ContentBlock.initial) = Some 0).
Proof.
  split.
  - unfold ContentBlock.run. induction evs as [|ev evs IH]; simpl; [done|].
    assert (ContentBlock.step 0 ev ContentBlock.initial = ContentBlock.initial) as ->.
    { by destruct ev. }
    exact IH.
  - assert (block_ok 1 (ContentBlock.run 1 evs ContentBlock.initial)) as [Ha Hl].
    { apply block_ok_run. split; simpl; [lia|done]. }
    split; [lia|]. unfold shown.
    destruct (ContentBlock.lightbox _) as [l|]; simpl; [|by left].
    right. f_equal. lia.
Qed.

(** X13. The overlay asks to be closed only by the Escape key, the close
    button or a click on the backdrop, and closing leaves its own state as it
    is. On an open, rendered overlay these three always close; a click on the
    image, the arrows, the thumbnails and every other key never do. *)
Theorem lightbox_closes_only_on_request
        (total : Z) (isOpen : bool) (ev : ImageLightbox.Event) (l : ImageLightbox.State) :
  (snd (ImageLightbox.handle total isOpen ev l) = true ->
   isOpen = true /\
   fst (ImageLightbox.handle total isOpen ev l) = l /\
   (ev = ImageLightbox.KeyDown "Escape" \/
    ImageLightbox.mounted l = true /\
    (ev = ImageLightbox.ClickClose \/ ev = ImageLightbox.ClickBackdrop))) /\
  (ImageLightbox.mounted l = true ->
   snd (ImageLightbox.handle total true ev l) = true <->
   ev = ImageLightbox.KeyDown "Escape" \/ ev = ImageLightbox.ClickClose \/
   ev = ImageLightbox.ClickBackdrop).
Proof.
  split.
  - destruct ev as [key| | | | | |idx]; simpl; try done.
    + intros [-> Hk%String.eqb_eq]%andb_true_iff. subst key.
      split; [done|]. split; [|by left]. simpl. by destruct (total >? 1).
    + intros [-> Hm]%andb_true_iff. split; [done|]. split; [done|]. right. auto.
    + intros [-> Hm]%andb_true_iff. split; [done|]. split; [done|]. right. auto.
  - intros Hm. destruct ev as [key| | | | | |idx]; simpl; rewrite ?Hm.
    + rewrite String.eqb_eq. split.
      * intros ->. by left.
      * intros [H|[H|H]]; [by injection H | done | done].
    + split; [auto|done].
    + split; [auto|done].
    + split; [done|]. intros [H|[H|H]]; done.
    + split; [done|]. intros [H|[H|H]]; done.
    + split; [done|]. intros [H|[H|H]]; done.
    + split; [done|]. intros [H|[H|H]]; done.
Qed.

Lemma lightbox_closes_only_on_request_witness :
  snd (ImageLightbox.handle 3 true ImageLightbox.ClickBackdrop
         (ImageLightbox.mkState 1 true)) = true /\
  snd (ImageLightbox.handle 3 true ImageLightbox.ClickImage
         (ImageLightbox.mkState 1 true)) <> true.
Proof.
  destruct (lightbox_closes_only_on_request 3 true ImageLightbox.ClickBackdrop
              (ImageLightbox.mkState 1 true)) as (_ & Hb).
  destruct (lightbox_closes_only_on_request 3 true ImageLightbox.ClickImage
              (ImageLightbox.mkState 1 true)) as (_ & Hi).
  split.
  - apply Hb; [reflexivity|]. right. right. reflexivity.
  - intros H. apply Hi in H; [|reflexivity].
    destruct H as [H|[H|H]]; discriminate H.
Defined.

(** X14. In the overlay, previous undoes next and next undoes previous on
    an in-range index, state for state; over more than one image the arrow
    keys do what the arrow buttons of the rendered overlay do, and a
    thumbnail inside the strip selects its own index. *)
Theorem lightbox_navigation_laws (total : Z) (l : ImageLightbox.State) :
  0 <= ImageLightbox.currentIndex l < total ->
  ImageLightbox.handlePrevious total (ImageLightbox.handleNext total l) = l /\
  ImageLightbox.handleNext total (ImageLightbox.handlePrevious total l) = l /\
  (ImageLightbox.mounted l = true ->
   ImageLightbox.handle total true (ImageLightbox.KeyDown "ArrowRight") l
   = ImageLightbox.handle total true ImageLightbox.ClickNext l /\
   ImageLightbox.handle total true (ImageLightbox.KeyDown "ArrowLeft") l
   = ImageLightbox.handle total true ImageLightbox.ClickPrevious l) /\
  (forall idx : nat,
     ImageLightbox.mounted l = true -> 1 < total -> Z.of_nat idx < total ->
     ImageLightbox.currentIndex
       (fst (ImageLightbox.handle total true (ImageLightbox.ClickThumbnail idx) l))
     = Z.of_nat idx).
Proof.
  intros Hc. destruct l as [c m]. simpl in Hc.
  unfold ImageLightbox.handlePrevious, ImageLightbox.handleNext,
    ImageLightbox.setCurrentIndex. simpl.
  split; [by rewrite previous_after_next|].
  split; [by rewrite next_after_previous|].
  split.
  - intros ->. simpl. by destruct (total >? 1).
  - intros idx -> Ht Hidx. simpl.
    assert ((total >? 1) = true) as -> by (apply Z.gtb_lt; lia).
    assert ((Z.of_nat idx <? total) = true) as -> by (apply Z.ltb_lt; lia).
    reflexivity.
Qed.

Lemma lightbox_navigation_laws_witness :
  ImageLightbox.handlePrevious 5 (ImageLightbox.handleNext 5 (ImageLightbox.mkState 4 true))
  = ImageLightbox.mkState 4 true /\
  ImageLightbox.currentIndex
    (fst (ImageLightbox.handle 5 true (ImageLightbox.ClickThumbnail 3)
            (ImageLightbox.mkState 4 true))) = 3.
Proof.
  destruct (lightbox_navigation_laws 5 (ImageLightbox.mkState 4 true))
    as (Hpn & _ & _ & Hthumb).
  - simpl. lia.
  - split; [exact Hpn|]. apply (Hthumb 3%nat); [reflexivity | lia | simpl; lia].
Defined.

(** X15. The links an upload appends are empty, and an empty link renders
    no "Open Link" button: over the sequences of an aligned editor state
    after an upload, the lightbox finds no link at any of the new positions. *)
Theorem uploaded_images_show_no_link
        Json parse get_error get_imageUrl fetch cookie files
        (s : State) (l : ImageLightbox.State) :
  length (images s) = length (imageLinks s) ->
  let r := ContentBlockEditor.handleFileUpload Json parse get_error get_imageUrl
             fetch cookie files s in
  Js.len (images s) <= ImageLightbox.currentIndex l < Js.len (images (fst r)) ->
  ImageLightbox.currentLink (imageLinks (fst r)) l = None.
Proof.
  intros Hal r Hidx.
  destruct (handleFileUpload_shape Json parse get_error get_imageUrl fetch
              cookie files s) as (urls & Himg & Hlnk & _).
  fold r in Himg, Hlnk. rewrite Himg in Hidx. rewrite Hlnk.
  unfold ImageLightbox.currentLink, Js.len in *. rewrite length_app in Hidx.
  destruct (Z.ltb_spec (ImageLightbox.currentIndex l) 0); [done|].
  rewrite lookup_app_r by lia.
  destruct (replicate (length urls) "" !! _) as [link|] eqn:E; [|done].
  apply lookup_replicate in E as [-> _]. done.
Qed.

Lemma uploaded_images_show_no_link_witness :
  let s := mkState title "" false "" true ["A"] ["https://example.com"] false 0 in
  let a := File.mk "a.png" "image/png" 1000 in
  let r := TestNet.handleFileUpload [responds true "data:a"] (Some "t") (Some [a]) s in
  ImageLightbox.currentLink (imageLinks (fst r)) (ImageLightbox.mkState 1 true) = None /\
  ImageLightbox.currentLink (imageLinks (fst r)) (ImageLightbox.mkState 0 true)
  = Some "https://example.com".
Proof.
  intros s a r. split; [|reflexivity].
  apply (uploaded_images_show_no_link string TestNet.JSON_parse TestNet.get_error
           TestNet.get_imageUrl (TestNet.fetch [responds true "data:a"])
           (Some "t") (Some [a]) s (ImageLightbox.mkState 1 true)).
  - reflexivity.
  - unfold Js.len. simpl. lia.
Defined.

(** * The token check and the upload route *)

Lemma startsWith_split (h p : string) :
  Js.startsWith h p = true -> h = p +:+ Js.substring_from (String.length p) h.
Proof.
  unfold Js.startsWith. revert h.
  induction p as [|a p IH]; intros h; [by destruct h|].
  destruct h as [|b h]; simpl; [done|].
  destruct (Ascii.ascii_dec a b) as [->|]; [|done].
  intros H.
  change (String b h = String b (p +:+ Js.substring_from (String.length p) h)).
  f_equal. by apply IH.
Qed.

Lemma strict_neq_false (a : Auth.Value) (env : option string) :
  Auth.strict_neq a env = false <->
  (a = Auth.undefined /\ env = None) \/ (exists e, a = Auth.str e /\ env = Some e).
Proof.
  split.
  - destruct a as [|s|], env as [t|]; simpl; try done.
    + intros _. by left.
    + intros H. right. exists s. apply negb_false_iff, String.eqb_eq in H. by subst.
  - intros [[-> ->]|(e & -> & ->)]; simpl; [done|]. by rewrite String.eqb_refl.
Qed.

(** X16. [verifyToken] lets a request through exactly when its
    Authorization header is "Bearer " followed by a token that [jwtVerify]
    accepts and whose payload's email is the configured admin email. The
    comparison is strict inequality, so when ADMIN_EMAIL is not set a verified
    token without an email claim matches too. *)
Theorem verifyToken_accepts
        (Payload : Type) (jwtVerify : string -> option Payload)
        (email : Payload -> Auth.Value) (ADMIN_EMAIL : option string)
        (authHeader : option string) (payload : Payload) :
  Auth.verifyToken Payload jwtVerify email ADMIN_EMAIL authHeader = Some payload <->
  exists token,
    authHeader = Some ("Bearer " +:+ token) /\
    jwtVerify token = Some payload /\
    ((email payload = Auth.undefined /\ ADMIN_EMAIL = None) \/
     (exists e, email payload = Auth.str e /\ ADMIN_EMAIL = Some e)).
Proof.
  unfold Auth.verifyToken. split.
  - destruct authHeader as [h|]; [|done].
    destruct (Js.truthy h); cbn [negb orb]; [|done].
    destruct (Js.startsWith h "Bearer ") eqn:Hp; cbn [negb]; [|done].
    apply startsWith_split in Hp. simpl String.length in Hp.
    destruct (jwtVerify (Js.substring_from 7 h)) as [p|] eqn:Hj; [|done].
    destruct (Auth.strict_neq (email p) ADMIN_EMAIL) eqn:Hne; [done|].
    intros [= ->]. exists (Js.substring_from 7 h).
    split; [by rewrite <- Hp|]. split; [done|]. by apply strict_neq_false.
  - intros (token & -> & Hj & Hne%strict_neq_false).
    assert (Js.startsWith ("Bearer " +:+ token) "Bearer " = true) as ->.
    { unfold Js.startsWith. simpl. by destruct token. }
    change (Js.truthy ("Bearer " +:+ token)) with true.
    change (Js.substring_from 7 ("Bearer " +:+ token)) with token.
    cbn [negb orb]. by rewrite Hj, Hne.
Qed.

Lemma verifyToken_accepts_witness :
  Auth.verifyToken string Wire.jwtVerify Wire.email Wire.ADMIN_EMAIL (Some "Bearer good")
  = Some "admin@example.com" /\
  Auth.verifyToken string Wire.jwtVerify (fun _ => Auth.undefined) None (Some "Bearer good")
  = Some "admin@example.com".
Proof.
  split.
  - apply (verifyToken_accepts string Wire.jwtVerify Wire.email Wire.ADMIN_EMAIL).
    exists "good". split; [reflexivity|]. split; [reflexivity|].
    right. exists "admin@example.com". split; reflexivity.
  - apply (verifyToken_accepts string Wire.jwtVerify (fun _ => Auth.undefined) None).
    exists "good". split; [reflexivity|]. split; [reflexivity|].
    left. split; reflexivity.
Defined.

Lemma validate_status file r :
  UploadRoute.validate file = Some r -> upload_status r = 400.
Proof.
  unfold UploadRoute.validate.
  destruct (negb _); [by intros [= <-]|].
  destruct (_ >? _); [by intros [= <-]|done].
Qed.

(** X17. The upload route answers 401 exactly to requests without a valid
    token, whatever they carry: the token is checked before the form is read.
    To an authorised request it answers 400 exactly when the form has no image
    or the image fails the type or size check, 500 exactly when the form or
    the bytes cannot be read, and 200 otherwise, with the data URL of the
    file's own type and its name and size echoed. *)
Theorem upload_POST_status
        (base64 : File.t -> option string) (user : bool)
        (formData : option (option File.t)) :
  let r := UploadRoute.POST base64 user formData in
  (upload_status r = 401 <-> user = false) /\
  (upload_status r = 400 <->
   user = true /\
   (formData = Some None \/
    exists file, formData = Some (Some file) /\ UploadRoute.validate file <> None)) /\
  (upload_status r = 500 <->
   user = true /\
   (formData = None \/
    exists file, formData = Some (Some file) /\ UploadRoute.validate file = None /\
                 base64 file = None)) /\
  (upload_status r = 200 <->
   user = true /\
   exists file b, formData = Some (Some file) /\ UploadRoute.validate file = None /\
     base64 file = Some b /\
     r = UploadRoute.json 200
           (UploadRoute.uploaded (data_url file b) (File.name file) (File.size file))).
Proof.
  intros r. subst r. unfold UploadRoute.POST.
  destruct user; simpl.
  2:{ split; [done|]. repeat split; try done; intros [H _]; done. }
  destruct formData as [[file|]|]; simpl.
  2:{ split; [done|]. split; [split; [intros _; split; [done|by left] | done]|].
      split; split; try done.
      - intros [_ [H|(f & H & _)]]; done.
      - intros [_ (f & b & H & _)]; done. }
  2:{ split; [done|]. split; [split; [done|]; intros [_ [H|(f & H & _)]]; done|].
      split; split; try done.
      - intros _. split; [done|]. by left.
      - intros [_ (f & b & H & _)]; done. }
  destruct (UploadRoute.validate file) as [v|] eqn:Hv.
  - pose proof (validate_status file v Hv) as Hs. rewrite Hs.
    split; [done|]. split.
    { split; [|done]. intros _. split; [done|]. right. exists file. by rewrite Hv. }
    split; split; try done.
    + intros [_ [H|(f & [= <-] & H & _)]]; [done|]. by rewrite Hv in H.
    + intros [_ (f & b & [= <-] & H & _)]. by rewrite Hv in H.
  - destruct (base64 file) as [b|] eqn:Hb; simpl.
    + split; [done|]. split.
      { split; [done|]. intros [_ [H|(f & [= <-] & H)]]; [done|]. by rewrite Hv in H. }
      split.
      { split; [done|]. intros [_ [H|(f & [= <-] & _ & H)]]; [done|]. by rewrite Hb in H. }
      split; [|done]. intros _. split; [done|]. exists file, b. by rewrite Hv, Hb.
    + split; [done|]. split.
      { split; [done|]. intros [_ [H|(f & [= <-] & H)]]; [done|]. by rewrite Hv in H. }
      split.
      { split; [|done]. intros _. split; [done|]. right. exists file. by rewrite Hv, Hb. }
      split; [done|]. intros [_ (f & b & [= <-] & _ & H & _)]. by rewrite Hb in H.
Qed.

(** * The editor against the upload route *)

Section EditorToRoute.

Variable Payload : Type.
Variable jwtVerify : string -> option Payload.
Variable email : Payload -> Auth.Value.
Variable ADMIN_EMAIL : option string.
Variable base64 : File.t -> option string.
Variable Json : Type.
Variable JSON_parse : string -> option Json.
Variable get_error : Json -> string.
Variable get_imageUrl : Json -> option string.
Variable stringify : UploadRoute.Body -> string.

(** The wire: what the route writes is an object literal that the editor's
    parser reads back, with the fields the editor looks at. *)
Hypothesis wire_error : forall m,
  Js.str_includes (stringify (UploadRoute.error m)) "{" = true /\
  get_error <$> JSON_parse (stringify (UploadRoute.error m)) = Some m.
Hypothesis wire_uploaded : forall u n sz,
  JSON_parse (stringify (UploadRoute.uploaded u n sz)) ≫= get_imageUrl = Some u.

Abbreviation verify := (Auth.verifyToken Payload jwtVerify email ADMIN_EMAIL).
Abbreviation net := (server_fetch Payload jwtVerify email ADMIN_EMAIL base64 stringify).
Abbreviation upload :=
  (ContentBlockEditor.handleFileUpload Json JSON_parse get_error get_imageUrl net).
Abbreviation net_outcomes :=
  (request_outcomes Json JSON_parse get_error get_imageUrl net).

Lemma net_outcomes_authorised token files : forall i,
  is_Some (verify (Some ("Bearer " +:+ token))) ->
  Forall (fun f => check_file f = None) files ->
  Forall (fun f => is_Some (base64 f)) files ->
  net_outcomes token i files
  = Uploaded <$> omap (fun f => data_url f <$> base64 f) files.
Proof.
  intros i [p Hp]. revert i.
  induction files as [|file rest IH]; intros i Hcheck Hread; [done|].
  apply Forall_cons in Hcheck as [Hfile Hcheck].
  apply Forall_cons in Hread as [[b Hb] Hread].
  cbn [request_outcomes omap list_omap]. rewrite Hb. cbn [fmap option_fmap option_map].
  rewrite fmap_cons, <- (IH (S i)) by done. f_equal.
  unfold request_outcome, server_fetch, UploadRoute.route, UploadRoute.POST.
  rewrite Hp. cbn [negb].
  apply check_file_accepts, validate_accepts in Hfile. rewrite Hfile, Hb.
  cbn [response_ok]. change (response_ok 200) with true. cbn.
  fold (data_url file b). by rewrite wire_uploaded.
Qed.

Lemma net_outcomes_unauthorised token files : forall i,
  verify (Some ("Bearer " +:+ token)) = None ->
  net_outcomes token i files = (fun _ => Failed "Unauthorized") <$> files.
Proof.
  intros i Hv. revert i.
  induction files as [|file rest IH]; intros i; [done|].
  cbn [request_outcomes]. rewrite fmap_cons, <- (IH (S i)). f_equal.
  unfold request_outcome, server_fetch, UploadRoute.route, UploadRoute.POST.
  rewrite Hv. cbn [negb]. change (response_ok 401) with false. cbn iota.
  destruct (wire_error "Unauthorized") as [-> Hparse].
  destruct (JSON_parse (stringify (UploadRoute.error "Unauthorized"))) as [j|];
    [|done].
  by injection Hparse as ->.
Qed.

Lemma uploaded_fmap urls : uploaded (Uploaded <$> urls) = urls.
Proof.
  induction urls as [|u urls IH]; [done|].
  rewrite fmap_cons. cbn [uploaded]. by rewrite IH.
Qed.

Lemma failure_alerts_uploaded files urls :
  failure_alerts files (Uploaded <$> urls) = [].
Proof.
  revert urls. induction files as [|f files IH]; intros [|u urls]; simpl; auto.
Qed.

Lemma outcomes_not_thrown_uploaded (urls : list string) :
  Forall (fun o => o <> Thrown) (Uploaded <$> urls).
Proof. induction urls; constructor; done. Qed.



End EditorToRoute.

Lemma wire_reads_back :
  (forall m,
     Js.str_includes (Wire.stringify (UploadRoute.error m)) "{" = true /\
     Wire.get_error <$> Wire.JSON_parse (Wire.stringify (UploadRoute.error m)) = Some m) /\
  (forall u n sz,
     Wire.JSON_parse (Wire.stringify (UploadRoute.uploaded u n sz)) ≫= Wire.get_imageUrl
     = Some u).
Proof. split; intros; [split|]; reflexivity. Defined.



(** * The profile POST endpoint and the stored document *)

Section ProfilePOST.

Context {Profile Db Id : Type}.
Variable connect : Db -> bool.
Variable select_latest_id : Db -> Db * option (list Id).
Variable insert : Profile -> Db -> Db * option unit.
Variable update : Id -> Profile -> Db -> Db * option unit.

Abbreviation POST :=
  (ProfileRoute.POST Profile Db Id connect select_latest_id insert update).

(** X20. The profile POST answers 401 to a request without a valid token
    and then runs no query: the database is the one it was given. It answers
    only 200, 401 or 500, and 200 only after a write of the posted document
    succeeded: an insert when the table held no row, an update of the row
    with the newest id otherwise. *)
Theorem profile_POST_status (user : bool) (body : option Profile) (db : Db) :
  (user = false ->
   POST user body db
   = (db, ProfileRoute.post_json 401 (ProfileRoute.failure "Unauthorized"))) /\
  (post_status (snd (POST user body db)) = 200 \/
   post_status (snd (POST user body db)) = 401 \/
   post_status (snd (POST user body db)) = 500) /\
  (post_status (snd (POST user body db)) = 200 ->
   user = true /\ connect db = true /\
   exists profile db1 ids,
     body = Some profile /\
     select_latest_id db = (db1, Some ids) /\
     match ids with
     | [] => insert profile db1 = (fst (POST user body db), Some tt)
     | id :: _ => update id profile db1 = (fst (POST user body db), Some tt)
     end).
Proof.
  unfold ProfileRoute.POST. destruct user; simpl;
    [|split; [done|]; split; [auto|done]].
  split; [done|].
  destruct body as [profile|]; [|simpl; split; [auto|done]].
  destruct (connect db); simpl; [|split; [auto|done]].
  destruct (select_latest_id db) as [db1 [[|id ids]|]] eqn:Hsel;
    [| |simpl; split; [auto|done]].
  - destruct (insert profile db1) as [db2 [[]|]] eqn:Hins; simpl;
      (split; [auto|]); [|done].
    intros _. split; [done|]. split; [done|]. exists profile, db1, []. done.
  - destruct (update id profile db1) as [db2 [[]|]] eqn:Hupd; simpl;
      (split; [auto|]); [|done].
    intros _. split; [done|]. split; [done|]. exists profile, db1, (id :: ids). done.
Qed.

End ProfilePOST.

(** An unauthorised POST and a first POST on the in-memory table. *)
Lemma profile_POST_status_witness :
  Portfolio.POST string false (Some "doc") (Some ["old"])
  = (Some ["old"], ProfileRoute.post_json 401 (ProfileRoute.failure "Unauthorized")) /\
  Portfolio.POST string true (Some "doc") (Some [])
  = (Some ["doc"], ProfileRoute.post_json 200 ProfileRoute.saved).
Proof.
  split.
  - apply (profile_POST_status (Portfolio.connect string)
             (Portfolio.select_latest_id string) (Portfolio.insert string)
             (Portfolio.update string) false (Some "doc") (Some ["old"])).
    reflexivity.
  - destruct (profile_POST_status (Portfolio.connect string)
                (Portfolio.select_latest_id string) (Portfolio.insert string)
                (Portfolio.update string) true (Some "doc") (Some []))
      as (_ & _ & H200).
    destruct H200 as (_ & _ & profile & db1 & ids & _ & _ & _); reflexivity.
Defined.

Section StoredDocument.

Context {Profile : Type}.
Variable defaultProfile : Profile.

Abbreviation GET' := (Portfolio.GET Profile defaultProfile).
Abbreviation POST' := (Portfolio.POST Profile).
Abbreviation ok' := (ProfileRoute.json Profile 200).
Abbreviation saved' := (ProfileRoute.post_json 200 ProfileRoute.saved).

Lemma portfolio_POST_on_table (p : Profile) (rows : list Profile) :
  POST' true (Some p) (Some rows)
  = (Some (match rows with [] => [p] | _ :: older => p :: older end), saved').
Proof.
  unfold Portfolio.POST, ProfileRoute.POST. simpl.
  destruct rows as [|row older]; simpl; [done|].
  assert ((length older <=? length older)%nat = true) as -> by (by apply Nat.leb_le).
  by rewrite Nat.sub_diag.
Qed.

Lemma portfolio_GET_on_table (rows : list Profile) :
  GET' (Some rows)
  = match rows with
    | [] => (Some [defaultProfile], ok' defaultProfile)
    | row :: _ => (Some rows, ok' row)
    end.
Proof. by destruct rows. Qed.

(** X21. On the in-memory table: once the table exists, an authorised POST
    of a document succeeds and the next GET returns that document; of two
    POSTs in a row the later one is what GET returns. Since GET creates the
    table, this holds after any first GET. *)
Theorem profile_POST_GET_round_trip (db : Portfolio.Db Profile) (p q : Profile) :
  (db <> None ->
   snd (POST' true (Some p) db) = saved' /\
   snd (GET' (fst (POST' true (Some p) db))) = ok' p /\
   snd (GET' (fst (POST' true (Some q) (fst (POST' true (Some p) db))))) = ok' q) /\
  (let db1 := fst (GET' db) in
   snd (POST' true (Some p) db1) = saved' /\
   snd (GET' (fst (POST' true (Some p) db1))) = ok' p).
Proof.
  split.
  - destruct db as [rows|]; [intros _|done].
    rewrite !portfolio_POST_on_table. cbn [fst snd].
    split; [done|]. split.
    + rewrite portfolio_GET_on_table. by destruct rows.
    + rewrite portfolio_POST_on_table. cbn [fst]. rewrite portfolio_GET_on_table.
      by destruct rows.
  - intros db1.
    assert (exists rows, db1 = Some rows) as [rows ->].
    { subst db1. destruct db as [[|row rows]|]; simpl; eauto. }
    rewrite portfolio_POST_on_table. cbn [fst snd].
    split; [done|]. rewrite portfolio_GET_on_table. by destruct rows.
Qed.

(** X22. On the in-memory table: a POST before the table exists fails with
    500 and does not create it (only GET has the CREATE TABLE statement);
    GET on a missing or empty table stores the default document and returns
    it; and a second GET changes nothing and returns what the first
    returned. *)
Theorem profile_table_bootstrap (db : Portfolio.Db Profile) (p : Profile) :
  POST' true (Some p) None
  = (None, ProfileRoute.post_json 500 (ProfileRoute.failure "Failed to save profile")) /\
  GET' None = (Some [defaultProfile], ok' defaultProfile) /\
  GET' (Some []) = (Some [defaultProfile], ok' defaultProfile) /\
  GET' (fst (GET' db)) = (fst (GET' db), snd (GET' db)).
Proof.
  split; [done|]. split; [done|]. split; [done|].
  by destruct db as [[|row rows]|].
Qed.

(** X23. On the in-memory table the routes keep a single document: a table
    with at most one row has at most one row after any GET and any POST,
    authorised or not, whatever its body; and after a GET the table holds
    at least one. *)
Theorem profile_single_document
        (db : Portfolio.Db Profile) (user : bool) (body : option Profile) :
  (row_count db <= 1)%nat ->
  (row_count (fst (GET' db)) <= 1)%nat /\
  (1 <= row_count (fst (GET' db)))%nat /\
  (row_count (fst (POST' user body db)) <= 1)%nat.
Proof.
  intros Hn. unfold row_count in *.
  assert (fst (GET' db) = Some [defaultProfile] \/
          (fst (GET' db) = db /\ exists row, db = Some [row])) as Hget.
  { destruct db as [[|row [|row' rows]]|]; cbn in *; eauto. lia. }
  split; [|split].
  - destruct Hget as [-> | [-> _]]; [cbn; lia | done].
  - destruct Hget as [-> | [-> [row ->]]]; cbn; lia.
  - destruct user; [|done]. destruct body as [p|]; [|done].
    destruct db as [rows|]; [|cbn; lia].
    rewrite portfolio_POST_on_table. cbn [fst].
    destruct rows as [|row rows]; cbn in *; lia.
Qed.

End StoredDocument.

Lemma profile_POST_GET_round_trip_witness :
  snd (Portfolio.GET string "default"
         (fst (Portfolio.POST string true (Some "mine") (Some ["old"]))))
  = ProfileRoute.json string 200 "mine".
Proof.
  destruct (profile_POST_GET_round_trip "default" (Some ["old"]) "mine" "mine")
    as (H & _).
  apply H. intros E. discriminate E.
Defined.

Lemma profile_single_document_witness :
  (row_count (fst (Portfolio.POST string true (Some "mine") (Some ["old"]))) <= 1)%nat.
Proof.
  apply (profile_single_document "default" (Some ["old"]) true (Some "mine")).
  unfold row_count. simpl. lia.
Defined.

(** A valid PNG from an authorised request, and the same from a request
    without a valid token. *)
Lemma upload_POST_status_witness :
  upload_status
    (UploadRoute.POST Wire.base64 true (Some (Some (File.mk "a.png" "image/png" 1000))))
  = 200 /\
  upload_status
    (UploadRoute.POST Wire.base64 false (Some (Some (File.mk "a.png" "image/png" 1000))))
  = 401.
Proof.
  destruct (upload_POST_status Wire.base64 true
              (Some (Some (File.mk "a.png" "image/png" 1000)))) as (_ & _ & _ & H200).
  destruct (upload_POST_status Wire.base64 false
              (Some (Some (File.mk "a.png" "image/png" 1000)))) as (H401 & _).
  split.
  - apply H200. split; [reflexivity|].
    exists (File.mk "a.png" "image/png" 1000), "a.png".
    repeat split; reflexivity.
  - apply H401. reflexivity.
Defined.

(** * The link array with holes *)

Lemma sparse_filter_of_strings (p : Z -> bool) (l : list string) : forall k,
  SparseEditor.filter_index_from p k (SparseEditor.str <$> l)
  = SparseEditor.str <$> Js.filter_index_from p k l.
Proof.
  induction l as [|x l IH]; intros k; [done|].
  rewrite fmap_cons. cbn [SparseEditor.filter_index_from Js.filter_index_from].
  destruct (p k); [rewrite fmap_cons|]; by rewrite IH.
Qed.

(** On the states of the list model the two models of the removal agree. *)
Lemma handleRemoveImage_of_dense (i : Z) (s : State) :
  SparseEditor.handleRemoveImage i (of_dense s) = of_dense (handleRemoveImage i s).
Proof.
  unfold SparseEditor.handleRemoveImage, handleRemoveImage, of_dense.
  cbn [SparseEditor.images SparseEditor.imageLinks SparseEditor.previewIndex].
  unfold SparseEditor.filter_index. rewrite sparse_filter_of_strings.
  by destruct (previewIndex s >=? Js.len (images s) - 1).
Qed.

Lemma spread_of_strings (l : list string) :
  SparseEditor.spread (SparseEditor.str <$> l) = SparseEditor.str <$> l.
Proof.
  unfold SparseEditor.spread. induction l as [|x l IH]; [done|].
  rewrite !fmap_cons. by rewrite IH.
Qed.

(** Where the list model of the link edit answers, the array model gives
    the same state. *)
Lemma handleUpdateLink_of_dense (index : nat) (link : string) (s s' : State) :
  handleUpdateLink index link s = Some s' ->
  SparseEditor.handleUpdateLink index link (of_dense s) = of_dense s'.
Proof.
  unfold handleUpdateLink, SparseEditor.handleUpdateLink, of_dense.
  cbn [SparseEditor.images SparseEditor.imageLinks SparseEditor.previewIndex].
  rewrite spread_of_strings. unfold SparseEditor.assign. rewrite length_fmap.
  destruct (decide (index < length (imageLinks s))%nat) as [Hlt|Hge].
  - intros [= <-]. simpl. by rewrite list_fmap_insert.
  - destruct (decide (index = length (imageLinks s))) as [->|Hne]; [|done].
    intros [= <-]. simpl. rewrite Nat.sub_diag. simpl. by rewrite fmap_app.
Qed.

Lemma sparse_filter_no_holes (p : Z -> bool) (arr : list SparseEditor.Slot) : forall k,
  no_holes arr ->
  SparseEditor.filter_index_from p k arr = Js.filter_index_from p k arr.
Proof.
  induction arr as [|x arr IH]; intros k Hn; [done|].
  apply Forall_cons in Hn as [Hx Hn].
  destruct x; [done| |]; simpl; by rewrite IH.
Qed.

Lemma drop_holes_no_holes (arr : list SparseEditor.Slot) :
  no_holes arr -> drop_holes arr = arr.
Proof.
  induction arr as [|x arr IH]; intros Hn; [done|].
  apply Forall_cons in Hn as [Hx Hn].
  destruct x; [done| |]; simpl; by rewrite IH.
Qed.

Lemma sparse_filter_outside (arr : list SparseEditor.Slot) (t : Z) : forall k,
  t < k \/ k + Js.len arr <= t ->
  SparseEditor.filter_index_from (fun j => Js.neq j t) k arr = drop_holes arr.
Proof.
  induction arr as [|x arr IH]; intros k Ht; [done|].
  unfold Js.len in *. simpl length in Ht.
  assert (SparseEditor.filter_index_from (fun j => Js.neq j t) (k + 1) arr
          = drop_holes arr) as Hrest by (apply IH; lia).
  assert (Js.neq k t = true) as Hk.
  { unfold Js.neq. destruct (Z.eqb_spec k t); [lia|done]. }
  destruct x; simpl; rewrite ?Hk, Hrest; done.
Qed.

(** C4 (code bug). The removal does not keep the two sequences aligned on
    every state in which they have equal length. A block with three images
    and no links is opened, the third thumbnail is selected and a link "x"
    is entered for it: [imageLinks] becomes an array of length 3 with holes
    at 0 and 1. Removing image 0 then leaves the images [B, C] but the links
    ["x"], since [filter] skips the holes: the lengths are 2 and 1, and the
    link of C has moved under B. *)
Theorem handleRemoveImage_misaligned_on_holes :
  let d := Build_InitialData title "" None (Some ["A"; "B"; "C"]) None in
  let opened := of_dense (setPreviewIndex 2 (load (Some d) initial)) in
  let s := SparseEditor.handleUpdateLink 2 "x" opened in
  SparseEditor.images s = ["A"; "B"; "C"] /\
  SparseEditor.imageLinks s
  = [SparseEditor.hole; SparseEditor.hole; SparseEditor.str "x"] /\
  length (SparseEditor.images s) = length (SparseEditor.imageLinks s) /\
  SparseEditor.images (SparseEditor.handleRemoveImage 0 s) = ["B"; "C"] /\
  SparseEditor.imageLinks (SparseEditor.handleRemoveImage 0 s)
  = [SparseEditor.str "x"] /\
  length (SparseEditor.images (SparseEditor.handleRemoveImage 0 s))
  <> length (SparseEditor.imageLinks (SparseEditor.handleRemoveImage 0 s)).
Proof. simpl. repeat split; [reflexivity .. | discriminate]. Qed.

(** X1. Removing at an index that is negative, or at or past the end of both
    sequences, removes no image and no link: [images] is unchanged and
    [imageLinks] keeps all its entries in their order. Only the holes of
    [imageLinks] go, so a link array without holes is unchanged. *)
Theorem handleRemoveImage_out_of_range (s : SparseEditor.State) (i : Z) :
  i < 0 \/
  (Js.len (SparseEditor.images s) <= i /\ Js.len (SparseEditor.imageLinks s) <= i) ->
  SparseEditor.images (SparseEditor.handleRemoveImage i s) = SparseEditor.images s /\
  SparseEditor.imageLinks (SparseEditor.handleRemoveImage i s)
  = drop_holes (SparseEditor.imageLinks s) /\
  (no_holes (SparseEditor.imageLinks s) ->
   SparseEditor.imageLinks (SparseEditor.handleRemoveImage i s)
   = SparseEditor.imageLinks s).
Proof.
  intros Hi. unfold SparseEditor.handleRemoveImage.
  cbn [SparseEditor.images SparseEditor.imageLinks].
  assert (SparseEditor.filter_index (fun j => Js.neq j i) (SparseEditor.imageLinks s)
          = drop_holes (SparseEditor.imageLinks s)) as Hlnk.
  { apply sparse_filter_outside. lia. }
  split; [|split].
  - apply filter_index_from_outside. lia.
  - exact Hlnk.
  - intros Hn. rewrite Hlnk. by apply drop_holes_no_holes.
Qed.

(** Two images with their links, and the array with two holes. *)
Lemma handleRemoveImage_out_of_range_witness :
  let s := SparseEditor.mkState ["A"; "B"]
             [SparseEditor.str ""; SparseEditor.str "x"] 0 in
  let t := SparseEditor.mkState ["A"; "B"; "C"]
             [SparseEditor.hole; SparseEditor.hole; SparseEditor.str "x"] 2 in
  SparseEditor.images (SparseEditor.handleRemoveImage 2 s) = ["A"; "B"] /\
  SparseEditor.imageLinks (SparseEditor.handleRemoveImage (-1) s)
  = [SparseEditor.str ""; SparseEditor.str "x"] /\
  SparseEditor.imageLinks (SparseEditor.handleRemoveImage 3 t) = [SparseEditor.str "x"].
Proof.
  intros s t.
  destruct (handleRemoveImage_out_of_range s 2) as (Himg & _).
  { right. unfold s, Js.len. simpl. lia. }
  destruct (handleRemoveImage_out_of_range s (-1)) as (_ & _ & Hsame).
  { left. lia. }
  destruct (handleRemoveImage_out_of_range t 3) as (_ & Hdrop & _).
  { right. unfold t, Js.len. simpl. lia. }
  split; [exact Himg|]. split; [|exact Hdrop].
  apply Hsame. unfold s. repeat constructor; intros H; discriminate H.
Defined.

(** X24. When [imageLinks] has no holes and the same length as [images],
    removing a valid index [i] drops exactly position [i] of both: the results
    have equal length, one less than before, the entries below [i] stay where
    they were and the entries above move down by one, in both sequences
    alike. *)
Theorem handleRemoveImage_aligned_without_holes (s : SparseEditor.State) (i : nat) :
  no_holes (SparseEditor.imageLinks s) ->
  length (SparseEditor.images s) = length (SparseEditor.imageLinks s) ->
  (i < length (SparseEditor.images s))%nat ->
  let s' := SparseEditor.handleRemoveImage (Z.of_nat i) s in
  SparseEditor.images s' = delete i (SparseEditor.images s) /\
  SparseEditor.imageLinks s' = delete i (SparseEditor.imageLinks s) /\
  length (SparseEditor.images s') = length (SparseEditor.imageLinks s') /\
  S (length (SparseEditor.images s')) = length (SparseEditor.images s) /\
  (forall j : nat, (j < i)%nat ->
     SparseEditor.images s' !! j = SparseEditor.images s !! j /\
     SparseEditor.imageLinks s' !! j = SparseEditor.imageLinks s !! j) /\
  (forall j : nat, (i <= j)%nat ->
     SparseEditor.images s' !! j = SparseEditor.images s !! S j /\
     SparseEditor.imageLinks s' !! j = SparseEditor.imageLinks s !! S j).
Proof.
  intros Hn Hlen Hi s'. subst s'. unfold SparseEditor.handleRemoveImage.
  cbn [SparseEditor.images SparseEditor.imageLinks].
  unfold SparseEditor.filter_index. rewrite sparse_filter_no_holes by done.
  fold (Js.filter_index (fun j => Js.neq j (Z.of_nat i)) (SparseEditor.imageLinks s)).
  rewrite !filter_index_delete.
  assert (is_Some (SparseEditor.images s !! i)) as Hsi by (by apply lookup_lt_is_Some).
  assert (is_Some (SparseEditor.imageLinks s !! i)) as Hsl
      by (apply lookup_lt_is_Some; by rewrite <- Hlen).
  split; [done|]. split; [done|].
  rewrite !length_delete by done.
  split; [by rewrite Hlen|]. split; [lia|]. split.
  - intros j Hj. by rewrite !list_lookup_delete_lt.
  - intros j Hj. by rewrite !list_lookup_delete_ge.
Qed.

(** Images [A, B, C] with links ["", "x", ""]: index 1 is removed. *)
Lemma handleRemoveImage_aligned_without_holes_witness :
  let s := SparseEditor.mkState ["A"; "B"; "C"]
             [SparseEditor.str ""; SparseEditor.str "x"; SparseEditor.str ""] 0 in
  SparseEditor.images (SparseEditor.handleRemoveImage 1 s) = ["A"; "C"] /\
  SparseEditor.imageLinks (SparseEditor.handleRemoveImage 1 s)
  = [SparseEditor.str ""; SparseEditor.str ""].
Proof.
  intros s.
  destruct (handleRemoveImage_aligned_without_holes s 1) as (Hi & Hl & _).
  - unfold s. repeat constructor; intros H; discriminate H.
  - reflexivity.
  - unfold s. simpl. lia.
  - split; [exact Hi | exact Hl].
Defined.
